(** * Characters of the symmetric group: a model of [character.py]

    The program computes, for a partition [λ] of [n] and a cycle type of
    [S_n], the permutation character [χ_M^λ] (fixed tabloids) and the
    irreducible character [χ_S^λ] (Murnaghan–Nakayama recursion over the
    rim hooks found by [rim_hooks]).

    Python integers are modelled by [Z], tuples and lists by [list],
    Python sets by [gset], and exceptions by a small error monad.  The two
    recursive helpers [backtrack] and [dfs] are not structurally recursive;
    they take a bound on the depth of the recursion and answer [OutOfFuel]
    when it is exceeded, which is shown never to happen ([backtrack_returns],
    [dfs_returns]).  [lru_cache] memoises pure functions and is left out. *)

From stdpp Require Import base numbers list gmap sorting.

Local Open Scope Z_scope.

(** ** Results and exceptions *)

Inductive error : Type :=
  | IndexError
  | ValueError
  | OutOfFuel.

Inductive result (A : Type) : Type :=
  | Ok (a : A)
  | Raise (e : error).
Arguments Ok {A} a.
Arguments Raise {A} e.

Global Instance result_ret : MRet result := λ A a, Ok a.
Global Instance result_bind : MBind result := λ A B f m,
  match m with
  | Ok a => f a
  | Raise e => Raise e
  end.

(** [for x in xs: acc = body acc x], stopping at the first exception. *)
Fixpoint for_each {A S : Type} (xs : list A) (body : S → A → result S)
    (acc : S) : result S :=
  match xs with
  | [] => Ok acc
  | x :: xs => acc' ← body acc x; for_each xs body acc'
  end.

(** [l[i]] for a non-negative index. *)
Definition index {A : Type} (l : list A) (i : nat) : result A :=
  match l !! i with
  | Some x => Ok x
  | None => Raise IndexError
  end.

(** [l[-1]]. *)
Definition index_last {A : Type} (l : list A) : result A :=
  match last l with
  | Some x => Ok x
  | None => Raise IndexError
  end.

(** ** Python built-ins *)

Definition sum (l : list Z) : Z := foldr Z.add 0 l.

Definition range (n : Z) : list Z := seqZ 0 n.

Definition enumerate {A : Type} (start : Z) (l : list A) : list (Z * A) :=
  imap (λ i x, (start + Z.of_nat i, x)) l.

(** [sorted(l, reverse=True)] on integers. *)
Definition sorted_reverse (l : list Z) : list Z := merge_sort Z.ge l.

(** ** [parse_cycle_type] *)

Definition parse_cycle_type (cycle_counts : list Z) : list Z :=
  enumerate 1 cycle_counts ≫= λ lc, replicate (Z.to_nat lc.2) lc.1.

(** ** [character_M] *)

Section character_M.
Variables partition cycle_lengths : list Z.

Definition rows : nat := length partition.

Fixpoint backtrack (fuel : nat) (idx : nat) (remaining : list Z)
    : result Z :=
  match fuel with
  | O => Raise OutOfFuel
  | S fuel =>
    if bool_decide (idx = length cycle_lengths) then
      Ok (if bool_decide (Forall (λ r, r = 0) remaining) then 1 else 0)
    else
      len ← index cycle_lengths idx;
      for_each (seq 0 rows) (λ total i,
        ri ← index remaining i;
        if bool_decide (len ≤ ri) then
          let new_rem := <[i := ri - len]> remaining in
          v ← backtrack fuel (S idx) new_rem;
          Ok (total + v)
        else Ok total) 0
  end.

Definition character_M : result Z :=
  backtrack (S (length cycle_lengths)) 0 partition.
End character_M.

(** ** [rim_hooks] *)

Abbreviation cell := (Z * Z)%type.
Abbreviation hook := (list Z * Z)%type.

Section rim_hooks.
Variable shape : list Z.
Variable hook_length : Z.

Definition cells : gset cell :=
  list_to_set (enumerate 0 shape ≫= λ rl, (λ c, (rl.1, c)) <$> range rl.2).

(** The list is built by iterating over the set; [elements] fixes one order
    of iteration.  What is proved below are sums, lengths and memberships,
    which do not depend on it. *)
Definition corners : list cell :=
  filter (λ x, ((x.1, x.2 + 1) ∉ cells) ∧ ((x.1 + 1, x.2) ∉ cells))
         (elements cells).

Definition is_border (x : cell) : bool :=
  bool_decide (((x.1, x.2 + 1) ∉ cells) ∨ ((x.1 + 1, x.2) ∉ cells)).

(** The rows of the diagram that survive the removal of [path]. *)
Definition residual_shape (path : list cell) : list Z :=
  let new_cells := cells ∖ list_to_set path in
  filter (λ row_len, 0 < row_len)
    ((λ r, Z.of_nat (size (filter (λ x : cell, x.1 = r) new_cells)))
       <$> range (Z.of_nat (length shape))).

(** The body of [dfs] once [len(path) == hook_length]. *)
Definition record_hook (path : list cell) (hooks : list hook) : list hook :=
  let new_shape := residual_shape path in
  if bool_decide (sum new_shape = sum shape - hook_length) then
    let rows_spanned := size (list_to_set path.*1 : gset Z) in
    let height := Z.of_nat rows_spanned - 1 in
    hooks ++ [(sorted_reverse new_shape, height)]
  else hooks.

(** One turn of the loop over the two directions in [dfs]: [recurse]
    stands for the recursive call. *)
Definition try_extend
    (recurse : list cell → gset cell → list hook → result (list hook))
    (path : list cell) (visited : gset cell) (lst : cell)
    (hooks : list hook) (d : Z * Z) : result (list hook) :=
  let nxt : cell := (lst.1 + d.1, lst.2 + d.2) in
  if bool_decide (nxt ∈ cells) && bool_decide (nxt ∉ visited)
     && is_border nxt
  then recurse (path ++ [nxt]) (visited ∪ {[nxt]}) hooks
  else Ok hooks.

Fixpoint dfs (fuel : nat) (path : list cell) (visited : gset cell)
    (hooks : list hook) : result (list hook) :=
  match fuel with
  | O => Raise OutOfFuel
  | S fuel =>
    if bool_decide (Z.of_nat (length path) = hook_length) then
      Ok (record_hook path hooks)
    else
      lst ← index_last path;
      for_each [(-1, 0); (0, -1)]
        (try_extend (dfs fuel) path visited lst) hooks
  end.

Definition rim_hooks : result (list hook) :=
  for_each corners (λ hooks corner,
    dfs (size cells) [corner] {[corner]} hooks) [].
End rim_hooks.

(** ** [character_S] *)

Fixpoint mn (shape : list Z) (cycles : list Z) : result Z :=
  match cycles with
  | [] => Ok 1
  | c :: rest =>
    hooks ← rim_hooks shape c;
    for_each hooks (λ total h,
      v ← mn h.1 rest;
      Ok (total + (-1) ^ h.2 * v)) 0
  end.

Definition character_S (partition cycle_lengths : list Z) : result Z :=
  mn partition cycle_lengths.

(** ** [main], after the command line has been split into integers *)

Definition main (partition cycle_counts : list Z) : result (Z * Z) :=
  if bool_decide (Z.of_nat (length cycle_counts) ≠ sum partition) then
    Raise ValueError
  else
    let cycle_lengths := parse_cycle_type cycle_counts in
    chi_M ← character_M partition cycle_lengths;
    chi_S ← character_S partition cycle_lengths;
    Ok (chi_M, chi_S).

(** * Diagrams, strips and rim hooks *)

(** The length of row [r] of a diagram, [0] outside of it. *)
Definition row_length (shape : list Z) (r : Z) : Z :=
  if decide (0 ≤ r) then default 0 (shape !! Z.to_nat r) else 0.

(** A partition: positive row lengths, non-increasing. *)
Definition is_partition (shape : list Z) : Prop :=
  Forall (λ x, 0 < x) shape ∧ Sorted Z.ge shape.

(** A diagram whose trailing rows may be empty. *)
Definition is_diagram (shape : list Z) : Prop :=
  Forall (λ x, 0 ≤ x) shape ∧ Sorted Z.ge shape.

(** The number of distinct rows a path touches. *)
Definition rows_spanned (path : list cell) : Z :=
  Z.of_nat (size (list_to_set path.*1 : gset Z)).

(** The two kinds of path the search can follow from a corner [(r0, c0)]:
    [k] cells straight up, or [k] cells straight to the left. *)
Definition vertical_strip (r0 c0 k : Z) : list cell :=
  (λ i, (r0 - i, c0)) <$> seqZ 0 k.

Definition horizontal_strip (r0 c0 k : Z) : list cell :=
  (λ i, (r0, c0 - i)) <$> seqZ 0 k.

(** The [k] rows ending at the corner's row all end in the corner's
    column. *)
Definition tall (shape : list Z) (corner : cell) (k : Z) : Prop :=
  0 ≤ corner.1 - k + 1
  ∧ row_length shape (corner.1 - k + 1) = corner.2 + 1.

(** The last [k] cells of the corner's row have nothing below them. *)
Definition wide (shape : list Z) (corner : cell) (k : Z) : Prop :=
  0 ≤ corner.2 - k + 1
  ∧ row_length shape (corner.1 + 1) ≤ corner.2 - k + 1.

(** Row lengths after the removal of a strip: the [k] rows ending at row
    [r0] lose one cell each, or row [r0] loses [k] cells. *)
Definition remove_vertical (shape : list Z) (r0 k : Z) : list Z :=
  (λ r, row_length shape r - (if decide (r0 - k < r ≤ r0) then 1 else 0))
    <$> range (Z.of_nat (length shape)).

Definition remove_horizontal (shape : list Z) (r0 k : Z) : list Z :=
  (λ r, row_length shape r - (if decide (r = r0) then k else 0))
    <$> range (Z.of_nat (length shape)).

Definition positive_rows (rows : list Z) : list Z :=
  filter (λ row_len, 0 < row_len) rows.

(** What the search started at [corner] adds to [hooks]. *)
Definition hooks_at (shape : list Z) (hook_length : Z) (corner : cell)
    : list hook :=
  (if decide (2 ≤ hook_length ∧ tall shape corner hook_length)
   then [(positive_rows (remove_vertical shape corner.1 hook_length),
          hook_length - 1)]
   else [])
  ++
  (if decide (wide shape corner hook_length)
   then [(positive_rows (remove_horizontal shape corner.1 hook_length), 0)]
   else []).

(** The row in which each strip found from [corner] ends: the topmost row
    of the strip going up, the corner's own row for the strip going left. *)
Definition hook_rows (shape : list Z) (hook_length : Z) (corner : cell)
    : list Z :=
  (if decide (2 ≤ hook_length ∧ tall shape corner hook_length)
   then [corner.1 - hook_length + 1]
   else [])
  ++
  (if decide (wide shape corner hook_length) then [corner.1] else []).

(** A removable rim hook: a connected strip of border cells (cells with no
    neighbour to the right or none below) whose removal leaves the diagram
    of a partition. *)
Definition adjacent (x y : cell) : Prop :=
  Z.abs (x.1 - y.1) + Z.abs (x.2 - y.2) = 1.

Definition connected_strip (path : list cell) : Prop :=
  ∀ i x y, path !! i = Some x → path !! S i = Some y → adjacent x y.

Definition removable_rim_hook (shape : list Z) (path : list cell) : Prop :=
  NoDup path
  ∧ (∀ x, x ∈ path → x ∈ cells shape ∧ is_border shape x = true)
  ∧ connected_strip path
  ∧ ∃ mu, is_partition mu ∧ cells shape ∖ list_to_set path = cells mu.

(** The recursion of [backtrack], on the cycles that are still to be
    placed instead of an index into the list of all cycles. *)
Fixpoint placements (rows : nat) (cycles : list Z) (remaining : list Z) : Z :=
  match cycles with
  | [] => if bool_decide (Forall (λ r, r = 0) remaining) then 1 else 0
  | len :: cycles =>
    sum ((λ i,
      match remaining !! i with
      | Some ri =>
        if bool_decide (len ≤ ri)
        then placements rows cycles (<[i := ri - len]> remaining)
        else 0
      | None => 0
      end) <$> seq 0 rows)
  end.

(** Placing [a] in row [i] and then [b] in row [j], as one term of a
    double sum. *)
Definition place_two (rows : nat) (rest remaining : list Z) (a b : Z)
    (i j : nat) : Z :=
  match remaining !! i with
  | Some ri =>
    if bool_decide (a ≤ ri) then
      match <[i := ri - a]> remaining !! j with
      | Some rj =>
        if bool_decide (b ≤ rj)
        then placements rows rest (<[j := rj - b]> (<[i := ri - a]> remaining))
        else 0
      | None => 0
      end
    else 0
  | None => 0
  end.

(** * Properties *)

(** ** The error monad and [for_each] *)

Lemma bind_Ok {A B : Type} (m : result A) (f : A → result B) (b : B) :
  m ≫= f = Ok b ↔ ∃ a, m = Ok a ∧ f a = Ok b.
Proof.
  destruct m as [a|e]; simpl; split.
  - eauto.
  - by intros (a' & [= ->] & ?).
  - done.
  - by intros (a' & ? & ?).
Qed.

(** A loop whose body keeps an invariant and never raises returns a state
    satisfying the invariant. *)
Lemma for_each_invariant {A S : Type} (P : S → Prop) (xs : list A)
    (body : S → A → result S) (acc : S) :
  P acc →
  (∀ acc x, x ∈ xs → P acc → ∃ acc', body acc x = Ok acc' ∧ P acc') →
  ∃ r, for_each xs body acc = Ok r ∧ P r.
Proof.
  revert acc. induction xs as [|x xs IH]; intros acc Hacc Hbody; simpl.
  - eauto.
  - destruct (Hbody acc x) as (acc' & -> & Hacc'); [left|done|]. simpl.
    apply IH; [done|]. intros a y Hy. apply Hbody. by right.
Qed.

Lemma index_lookup {A : Type} (l : list A) (i : nat) (x : A) :
  l !! i = Some x → index l i = Ok x.
Proof. unfold index. by intros ->. Qed.

(** ** [character_M] returns, and what it returns is a count *)

Section character_M_total.
Variables partition cycle_lengths : list Z.

Lemma backtrack_returns fuel idx remaining :
  (idx ≤ length cycle_lengths)%nat →
  (length cycle_lengths - idx < fuel)%nat →
  length remaining = rows partition →
  ∃ v, backtrack partition cycle_lengths fuel idx remaining = Ok v ∧ 0 ≤ v.
Proof.
  revert idx remaining.
  induction fuel as [|fuel IH]; intros idx remaining Hidx Hfuel Hlen;
    [lia|].
  simpl. case_bool_decide as Hend.
  - eexists; split; [done|]. case_bool_decide; lia.
  - destruct (lookup_lt_is_Some_2 cycle_lengths idx) as [len Hl]; [lia|].
    rewrite (index_lookup _ _ _ Hl). simpl.
    apply (for_each_invariant (λ total, 0 ≤ total)); [lia|].
    intros total i [_ Hi]%elem_of_seq Htotal.
    destruct (lookup_lt_is_Some_2 remaining i) as [ri Hri]; [lia|].
    rewrite (index_lookup _ _ _ Hri). simpl. case_bool_decide.
    + destruct (IH (S idx) (<[i:=ri - len]> remaining)) as (v & -> & Hv);
        [lia|lia|by rewrite length_insert|].
      simpl. eexists; split; [done|lia].
    + eauto.
Qed.
End character_M_total.

(** ** Cells of a diagram *)

Lemma enumerate_lookup {A : Type} (start : Z) (l : list A) (r : Z) (x : A) :
  (r, x) ∈ enumerate start l ↔
  ∃ i : nat, r = start + Z.of_nat i ∧ l !! i = Some x.
Proof.
  unfold enumerate. rewrite elem_of_lookup_imap. split.
  - intros (i & y & [= -> ->] & Hy). eauto.
  - intros (i & -> & Hx). eauto.
Qed.

Lemma row_length_lookup (shape : list Z) (i : nat) (x : Z) :
  shape !! i = Some x → row_length shape (Z.of_nat i) = x.
Proof.
  intros Hx. unfold row_length. rewrite decide_True by lia.
  by rewrite Nat2Z.id, Hx.
Qed.

Lemma row_length_outside (shape : list Z) (r : Z) :
  r < 0 ∨ Z.of_nat (length shape) ≤ r → row_length shape r = 0.
Proof.
  intros Hr. unfold row_length. case_decide; [|done].
  rewrite lookup_ge_None_2; [done|lia].
Qed.

Lemma elem_of_cells (shape : list Z) (r c : Z) :
  (r, c) ∈ cells shape ↔ 0 ≤ r ∧ 0 ≤ c < row_length shape r.
Proof.
  unfold cells. rewrite elem_of_list_to_set, list_elem_of_bind. split.
  - intros ([r' len] & Hc & (i & -> & Hlen)%enumerate_lookup).
    simpl in Hc. apply list_elem_of_fmap in Hc as (c' & [= -> ->] & Hc').
    apply elem_of_seqZ in Hc'. rewrite Z.add_0_l.
    rewrite (row_length_lookup _ _ _ Hlen). lia.
  - intros [Hr Hc]. unfold row_length in Hc. rewrite decide_True in Hc by done.
    destruct (shape !! Z.to_nat r) as [len|] eqn:Hlen; simpl in Hc; [|lia].
    exists (r, len). split.
    + simpl. apply list_elem_of_fmap. exists c. split; [done|].
      apply elem_of_seqZ. lia.
    + apply enumerate_lookup. exists (Z.to_nat r). split; [lia|done].
Qed.

(** ** Row lengths of diagrams *)

Lemma row_length_cons (x : Z) (shape : list Z) (r : Z) :
  row_length (x :: shape) r
  = if decide (r = 0) then x else row_length shape (r - 1).
Proof.
  unfold row_length. destruct (decide (r = 0)) as [->|Hr0].
  - by rewrite decide_True by lia.
  - destruct (decide (0 ≤ r)).
    + rewrite decide_True by lia.
      replace (Z.to_nat r) with (S (Z.to_nat (r - 1))) by lia. done.
    + by rewrite decide_False by lia.
Qed.

Lemma row_length_nonneg (shape : list Z) (r : Z) :
  Forall (λ x, 0 ≤ x) shape → 0 ≤ row_length shape r.
Proof.
  intros Hpos. unfold row_length. case_decide; [|done].
  destruct (shape !! Z.to_nat r) as [x|] eqn:Hx; simpl; [|done].
  by apply (Forall_lookup_1 _ _ _ _ Hpos Hx).
Qed.

Lemma row_length_positive (shape : list Z) (r : Z) :
  Forall (λ x, 0 < x) shape →
  0 < row_length shape r ↔ 0 ≤ r < Z.of_nat (length shape).
Proof.
  intros Hpos. split.
  - intros Hr. destruct (decide (r < 0 ∨ Z.of_nat (length shape) ≤ r))
      as [Hout|]; [|lia].
    rewrite row_length_outside in Hr by done. lia.
  - intros Hr. destruct (lookup_lt_is_Some_2 shape (Z.to_nat r)) as [x Hx];
      [lia|].
    rewrite <-(Z2Nat.id r), (row_length_lookup _ _ _ Hx) by lia.
    by apply (Forall_lookup_1 _ _ _ _ Hpos Hx).
Qed.

Lemma is_partition_diagram (shape : list Z) :
  is_partition shape → is_diagram shape.
Proof.
  intros [Hpos Hsorted]. split; [|done].
  eapply Forall_impl; [done|]. simpl. lia.
Qed.

Lemma row_length_succ_le (shape : list Z) (r : Z) :
  is_diagram shape → 0 ≤ r → row_length shape (r + 1) ≤ row_length shape r.
Proof.
  intros [Hpos Hsorted]. revert r.
  induction Hsorted as [|x shape Hsorted IH Hhd]; intros r Hr.
  - by rewrite !row_length_outside by (simpl; lia).
  - apply Forall_cons in Hpos as [Hx Hpos].
    rewrite !row_length_cons. rewrite (decide_False (P:=r + 1 = 0)) by lia.
    replace (r + 1 - 1) with r by lia. case_decide as Hr0.
    + subst r. destruct Hhd as [|y shape Hy].
      * by rewrite row_length_outside by (simpl; lia).
      * rewrite row_length_cons, decide_True by done. lia.
    + replace r with (r - 1 + 1) at 1 by lia. apply IH; [done|lia].
Qed.

Lemma row_length_le (shape : list Z) (r r' : Z) :
  is_diagram shape → 0 ≤ r ≤ r' → row_length shape r' ≤ row_length shape r.
Proof.
  intros Hshape [Hr Hle].
  replace r' with (r + Z.of_nat (Z.to_nat (r' - r))) by lia.
  induction (Z.to_nat (r' - r)) as [|n IH].
  - replace (r + Z.of_nat 0) with r by lia. done.
  - replace (r + Z.of_nat (S n)) with (r + Z.of_nat n + 1) by lia.
    etrans; [apply row_length_succ_le; [done|lia]|done].
Qed.

(** A list of row lengths given by a function of the row. *)
Lemma row_length_fmap_range (g : Z → Z) (n : nat) (r : Z) :
  row_length (g <$> range (Z.of_nat n)) r
  = if decide (0 ≤ r < Z.of_nat n) then g r else 0.
Proof.
  unfold row_length, range. case_decide as Hr.
  - rewrite list_lookup_fmap. case_decide as Hn.
    + rewrite lookup_seqZ_lt by lia. simpl. f_equal. lia.
    + rewrite lookup_seqZ_ge by lia. done.
  - by rewrite decide_False by lia.
Qed.

Lemma fmap_row_length_range (shape : list Z) :
  row_length shape <$> range (Z.of_nat (length shape)) = shape.
Proof.
  apply list_eq. intros i. unfold range. rewrite list_lookup_fmap.
  destruct (shape !! i) as [x|] eqn:Hx.
  - apply lookup_lt_Some in Hx as Hi.
    rewrite lookup_seqZ_lt by lia. simpl.
    by rewrite Z.add_0_l, (row_length_lookup _ _ _ Hx).
  - apply lookup_ge_None in Hx. by rewrite lookup_seqZ_ge by lia.
Qed.

Lemma Sorted_fmap_seqZ (g : Z → Z) (m : Z) (n : nat) :
  (∀ r, m ≤ r → r + 1 < m + Z.of_nat n → g (r + 1) ≤ g r) →
  Sorted Z.ge (g <$> seqZ m (Z.of_nat n)).
Proof.
  revert m. induction n as [|n IH]; intros m Hmono; [constructor|].
  rewrite seqZ_cons by lia. simpl.
  replace (Z.pred (Z.of_nat (S n))) with (Z.of_nat n) by lia.
  constructor.
  - apply IH. intros r ??. apply Hmono; lia.
  - destruct n as [|n]; [constructor|].
    rewrite seqZ_cons by lia. simpl. constructor.
    apply Z.le_ge. replace (Z.succ m) with (m + 1) by lia. apply Hmono; lia.
Qed.

Lemma is_diagram_fmap_range (g : Z → Z) (n : nat) :
  (∀ r, 0 ≤ r < Z.of_nat n → 0 ≤ g r) →
  (∀ r, 0 ≤ r → r + 1 < Z.of_nat n → g (r + 1) ≤ g r) →
  is_diagram (g <$> range (Z.of_nat n)).
Proof.
  intros Hpos Hmono. split.
  - apply Forall_fmap, Forall_forall. intros r Hr%elem_of_seqZ. apply Hpos.
    lia.
  - apply Sorted_fmap_seqZ. intros r ??. apply Hmono; lia.
Qed.

(** ** Strips *)

Lemma elem_of_vertical_strip (r0 c0 k r c : Z) :
  (r, c) ∈ vertical_strip r0 c0 k ↔ c = c0 ∧ r0 - k < r ≤ r0.
Proof.
  unfold vertical_strip. rewrite list_elem_of_fmap. split.
  - intros (i & [= -> ->] & Hi%elem_of_seqZ). lia.
  - intros [-> Hr]. exists (r0 - r). split; [f_equal; lia|].
    apply elem_of_seqZ. lia.
Qed.

Lemma elem_of_horizontal_strip (r0 c0 k r c : Z) :
  (r, c) ∈ horizontal_strip r0 c0 k ↔ r = r0 ∧ c0 - k < c ≤ c0.
Proof.
  unfold horizontal_strip. rewrite list_elem_of_fmap. split.
  - intros (i & [= -> ->] & Hi%elem_of_seqZ). lia.
  - intros [-> Hr]. exists (c0 - c). split; [f_equal; lia|].
    apply elem_of_seqZ. lia.
Qed.

Lemma seqZ_snoc (m k : Z) : 0 ≤ k → seqZ m (k + 1) = seqZ m k ++ [m + k].
Proof. intros Hk. by rewrite seqZ_app by lia. Qed.

Lemma vertical_strip_snoc (r0 c0 k : Z) :
  0 ≤ k →
  vertical_strip r0 c0 (k + 1) = vertical_strip r0 c0 k ++ [(r0 - k, c0)].
Proof.
  intros Hk. unfold vertical_strip. by rewrite seqZ_snoc, fmap_app by done.
Qed.

Lemma horizontal_strip_snoc (r0 c0 k : Z) :
  0 ≤ k →
  horizontal_strip r0 c0 (k + 1)
  = horizontal_strip r0 c0 k ++ [(r0, c0 - k)].
Proof.
  intros Hk. unfold horizontal_strip.
  by rewrite seqZ_snoc, fmap_app by done.
Qed.

Lemma vertical_strip_1 (r0 c0 : Z) : vertical_strip r0 c0 1 = [(r0, c0)].
Proof. unfold vertical_strip. simpl. by rewrite Z.sub_0_r. Qed.

Lemma horizontal_strip_1 (r0 c0 : Z) : horizontal_strip r0 c0 1 = [(r0, c0)].
Proof. unfold horizontal_strip. simpl. by rewrite Z.sub_0_r. Qed.

Lemma length_vertical_strip (r0 c0 k : Z) :
  length (vertical_strip r0 c0 k) = Z.to_nat k.
Proof. unfold vertical_strip. by rewrite length_fmap, length_seqZ. Qed.

Lemma length_horizontal_strip (r0 c0 k : Z) :
  length (horizontal_strip r0 c0 k) = Z.to_nat k.
Proof. unfold horizontal_strip. by rewrite length_fmap, length_seqZ. Qed.

Lemma NoDup_vertical_strip (r0 c0 k : Z) : NoDup (vertical_strip r0 c0 k).
Proof.
  apply NoDup_fmap_2_strong; [|apply NoDup_seqZ].
  intros i j _ _ [= ?]. lia.
Qed.

Lemma NoDup_horizontal_strip (r0 c0 k : Z) :
  NoDup (horizontal_strip r0 c0 k).
Proof.
  apply NoDup_fmap_2_strong; [|apply NoDup_seqZ].
  intros i j _ _ [= ?]. lia.
Qed.

Lemma rows_spanned_vertical_strip (r0 c0 k : Z) :
  0 ≤ k → rows_spanned (vertical_strip r0 c0 k) = k.
Proof.
  intros Hk. unfold rows_spanned, vertical_strip.
  rewrite <-list_fmap_compose, size_list_to_set.
  - rewrite length_fmap, length_seqZ. lia.
  - apply NoDup_fmap_2_strong; [|apply NoDup_seqZ].
    intros i j _ _. simpl. lia.
Qed.

Lemma rows_spanned_horizontal_strip (r0 c0 k : Z) :
  1 ≤ k → rows_spanned (horizontal_strip r0 c0 k) = 1.
Proof.
  intros Hk. unfold rows_spanned, horizontal_strip.
  rewrite <-list_fmap_compose.
  replace (list_to_set _) with ({[r0]} : gset Z); [by rewrite size_singleton|].
  apply set_eq. intros r.
  rewrite elem_of_singleton, elem_of_list_to_set, list_elem_of_fmap. split.
  - intros ->. exists 0. split; [done|]. apply elem_of_seqZ. lia.
  - by intros (i & -> & _).
Qed.

(** ** Counting cells row by row *)

Lemma sum_app (l k : list Z) : sum (l ++ k) = sum l + sum k.
Proof. induction l as [|x l IH]; simpl; lia. Qed.

Lemma sum_positive_rows (l : list Z) :
  Forall (λ x, 0 ≤ x) l → sum (positive_rows l) = sum l.
Proof.
  unfold positive_rows.
  induction 1 as [|x l Hx _ IH]; [done|].
  rewrite filter_cons. case_decide; simpl; lia.
Qed.

Lemma sum_singleton (x : Z) : sum [x] = x.
Proof. unfold sum. simpl. lia. Qed.

Lemma size_row_of_cells (shape : list Z) (r : Z) :
  size (filter (λ x : cell, x.1 = r) (cells shape))
  = Z.to_nat (row_length shape r).
Proof.
  replace (filter _ _) with
    (list_to_set ((λ c, (r, c)) <$> seqZ 0 (row_length shape r))
       : gset cell).
  - rewrite size_list_to_set; [by rewrite length_fmap, length_seqZ|].
    apply NoDup_fmap_2_strong; [|apply NoDup_seqZ]. by intros i j _ _ [= ?].
  - apply set_eq. intros [r' c].
    rewrite elem_of_filter, elem_of_cells, elem_of_list_to_set,
      list_elem_of_fmap. simpl. split.
    + intros (c' & [= -> ->] & Hc%elem_of_seqZ). split; [done|].
      split; [|lia]. unfold row_length in Hc. case_decide; [done|lia].
    + intros (-> & Hr & Hc). exists c. split; [done|].
      apply elem_of_seqZ. lia.
Qed.

Lemma size_rows_below (X : gset cell) (n : nat) :
  sum ((λ r, Z.of_nat (size (filter (λ x : cell, x.1 = r) X)))
         <$> range (Z.of_nat n))
  = Z.of_nat (size (filter (λ x : cell, 0 ≤ x.1 < Z.of_nat n) X)).
Proof.
  unfold range. induction n as [|n IH].
  - simpl. replace (filter _ X) with (∅ : gset cell); [done|].
    apply set_eq. intros x. rewrite elem_of_filter, elem_of_empty. lia.
  - rewrite seqZ_S, fmap_app, sum_app, IH, Z.add_0_l.
    change (sum (?f <$> [?y])) with (sum [f y]). rewrite sum_singleton.
    replace (filter (λ x : cell, 0 ≤ x.1 < Z.of_nat (S n)) X) with
      (filter (λ x : cell, 0 ≤ x.1 < Z.of_nat n) X
       ∪ filter (λ x : cell, x.1 = Z.of_nat n) X).
    + rewrite size_union; [lia|].
      intros x [Hx _]%elem_of_filter [Hx' _]%elem_of_filter. lia.
    + apply set_eq. intros x.
      rewrite elem_of_union, !elem_of_filter. split.
      * intros [[??]|[??]]; split; (done || lia).
      * intros [??]. destruct (decide (x.1 = Z.of_nat n)); [right|left];
          split; (done || lia).
Qed.

Lemma size_by_rows (X : gset cell) (n : nat) :
  (∀ x, x ∈ X → 0 ≤ x.1 < Z.of_nat n) →
  sum ((λ r, Z.of_nat (size (filter (λ x : cell, x.1 = r) X)))
         <$> range (Z.of_nat n))
  = Z.of_nat (size X).
Proof.
  intros HX. rewrite size_rows_below. do 2 f_equal.
  apply set_eq. intros x. rewrite elem_of_filter. split; [by intros [_ ?]|].
  intros Hx. split; [by apply HX|done].
Qed.

Lemma cells_rows (shape : list Z) (x : cell) :
  x ∈ cells shape → 0 ≤ x.1 < Z.of_nat (length shape).
Proof.
  destruct x as [r c]. intros [Hr Hc]%elem_of_cells. simpl.
  destruct (decide (Z.of_nat (length shape) ≤ r)); [|lia].
  rewrite row_length_outside in Hc by lia. lia.
Qed.

Lemma rows_of_cells (shape : list Z) :
  Forall (λ x, 0 ≤ x) shape →
  (λ r, Z.of_nat (size (filter (λ x : cell, x.1 = r) (cells shape))))
    <$> range (Z.of_nat (length shape))
  = shape.
Proof.
  intros Hpos.
  trans (row_length shape <$> range (Z.of_nat (length shape)));
    [|apply fmap_row_length_range].
  apply list_fmap_ext. intros i r _. rewrite size_row_of_cells.
  pose proof (row_length_nonneg shape r Hpos). lia.
Qed.

(** The cells of a diagram are as many as its row lengths add up to. *)
Lemma size_cells (shape : list Z) :
  Forall (λ x, 0 ≤ x) shape → Z.of_nat (size (cells shape)) = sum shape.
Proof.
  intros Hpos. rewrite <-(size_by_rows _ (length shape)) by apply cells_rows.
  by rewrite rows_of_cells.
Qed.

(** ** Partitions are determined by their row lengths *)

Lemma row_length_replicate (n : nat) (x r : Z) :
  row_length (replicate n x) r
  = if decide (0 ≤ r < Z.of_nat n) then x else 0.
Proof.
  unfold row_length. destruct (decide (0 ≤ r)) as [Hr|Hr].
  - case_decide as Hn.
    + by rewrite lookup_replicate_2 by lia.
    + by rewrite lookup_ge_None_2 by (rewrite length_replicate; lia).
  - by rewrite decide_False by lia.
Qed.

Lemma is_partition_replicate (n : nat) : is_partition (replicate n 1).
Proof.
  split; [by apply Forall_replicate|].
  induction n as [|n IH]; [constructor|]. simpl. constructor; [done|].
  destruct n; constructor. lia.
Qed.

Lemma partition_ext (a b : list Z) :
  Forall (λ x, 0 < x) a →
  Forall (λ x, 0 < x) b →
  (∀ r, row_length a r = row_length b r) →
  a = b.
Proof.
  intros Ha Hb Hrows.
  assert (length a = length b) as Hlen.
  { pose proof (row_length_positive a (Z.of_nat (length b)) Ha) as H1.
    pose proof (row_length_positive b (Z.of_nat (length a)) Hb) as H2.
    rewrite Hrows in H1. rewrite <-Hrows in H2.
    rewrite row_length_outside in H1, H2 by lia.
    destruct (decide (length a < length b)%nat).
    - pose proof (row_length_positive b (Z.of_nat (length a)) Hb) as H3.
      rewrite <-Hrows, row_length_outside in H3 by lia. lia.
    - destruct (decide (length b < length a)%nat); [|lia].
      pose proof (row_length_positive a (Z.of_nat (length b)) Ha) as H3.
      rewrite Hrows, row_length_outside in H3 by lia. lia. }
  apply list_eq. intros i.
  destruct (a !! i) as [x|] eqn:Hx.
  - destruct (lookup_lt_is_Some_2 b i) as [y Hy].
    { apply lookup_lt_Some in Hx. lia. }
    rewrite Hy. f_equal.
    rewrite <-(row_length_lookup _ _ _ Hx), <-(row_length_lookup _ _ _ Hy).
    apply Hrows.
  - symmetry. apply lookup_ge_None. apply lookup_ge_None in Hx. lia.
Qed.

(** Dropping the empty rows of a diagram does not move its cells. *)
Lemma row_length_positive_rows (mu : list Z) (r : Z) :
  is_diagram mu → row_length (positive_rows mu) r = row_length mu r.
Proof.
  intros Hmu. revert r. unfold positive_rows.
  induction mu as [|x mu IH]; intros r; [done|].
  assert (is_diagram mu) as Hmu'.
  { destruct Hmu as [Hpos Hsorted]. apply Forall_cons in Hpos as [_ Hpos].
    apply Sorted_inv in Hsorted as [Hsorted _]. by split. }
  rewrite filter_cons. case_decide as Hx.
  - rewrite !row_length_cons. case_decide; [done|]. by apply IH.
  - rewrite IH by done. rewrite row_length_cons.
    assert (x = 0) as ->.
    { destruct Hmu as [Hpos _]. apply Forall_cons in Hpos as [? _]. lia. }
    pose proof (row_length_nonneg mu r (proj1 Hmu')).
    pose proof (row_length_nonneg mu (r - 1) (proj1 Hmu')).
    destruct (decide (0 ≤ r)) as [Hr|Hr].
    + pose proof (row_length_le (0 :: mu) 0 (r + 1) Hmu) as Hle.
      rewrite !row_length_cons in Hle. simpl in Hle.
      rewrite decide_False in Hle by lia.
      replace (r + 1 - 1) with r in Hle by lia.
      assert (row_length mu r = 0) as -> by lia.
      case_decide; [done|].
      pose proof (row_length_le (0 :: mu) 0 r Hmu) as Hle'.
      rewrite !row_length_cons in Hle'. simpl in Hle'.
      rewrite decide_False in Hle' by lia. lia.
    + rewrite decide_False by lia.
      by rewrite !row_length_outside by lia.
Qed.

Lemma cells_positive_rows (mu : list Z) :
  is_diagram mu → cells (positive_rows mu) = cells mu.
Proof.
  intros Hmu. apply set_eq. intros [r c].
  by rewrite !elem_of_cells, row_length_positive_rows.
Qed.

Lemma sum_nonneg (l : list Z) : Forall (λ x, 0 < x) l → 0 ≤ sum l.
Proof. induction 1; simpl; lia. Qed.

Lemma sum_ge_length (l : list Z) :
  Forall (λ x, 0 < x) l → Z.of_nat (length l) ≤ sum l.
Proof. induction 1; simpl; lia. Qed.

(** ** Sorting row lengths *)

Local Instance Z_ge_transitive : Transitive Z.ge.
Proof. intros x y z. lia. Qed.

Local Instance Z_ge_antisymm : AntiSymm (=) Z.ge.
Proof. intros x y. lia. Qed.

Local Instance Z_ge_total : Total Z.ge.
Proof. intros x y. lia. Qed.

Lemma StronglySorted_filter {A : Type} (R : relation A) (P : A → Prop)
    `{∀ x, Decision (P x)} (l : list A) :
  StronglySorted R l → StronglySorted R (filter P l).
Proof.
  induction 1 as [|x l _ IH Hx]; [constructor|].
  rewrite filter_cons. case_decide; [|done].
  constructor; [done|]. apply Forall_forall.
  intros y [_ Hy]%list_elem_of_filter.
  by apply (proj1 (Forall_forall _ _) Hx).
Qed.

Lemma Sorted_positive_rows (l : list Z) :
  Sorted Z.ge l → Sorted Z.ge (positive_rows l).
Proof.
  intros Hl. apply StronglySorted_Sorted, StronglySorted_filter.
  apply Sorted_StronglySorted; [intros x y z; lia|done].
Qed.

(** Sorting a list that is already non-increasing changes nothing. *)
Lemma sorted_reverse_sorted (l : list Z) :
  Sorted Z.ge l → sorted_reverse l = l.
Proof.
  intros Hl. apply (Sorted_unique Z.ge); [apply Sorted_merge_sort, _|done|].
  apply merge_sort_Permutation.
Qed.

Lemma is_partition_positive_rows (mu : list Z) :
  Sorted Z.ge mu → is_partition (positive_rows mu).
Proof.
  intros Hmu. split; [|by apply Sorted_positive_rows].
  apply Forall_forall. by intros x [Hx _]%list_elem_of_filter.
Qed.

(** ** Recording a hook *)

Section record_hook.
Variable shape : list Z.
Variable hook_length : Z.
Hypothesis shape_nonneg : Forall (λ x, 0 ≤ x) shape.

(** The check on the number of cells in [record_hook] cannot fail for a
    path of distinct cells of the diagram. *)
Lemma residual_shape_sum (path : list cell) :
  NoDup path →
  (∀ x, x ∈ path → x ∈ cells shape) →
  sum (residual_shape shape path) = sum shape - Z.of_nat (length path).
Proof.
  intros Hnodup Hpath. unfold residual_shape.
  change (filter (λ row_len, 0 < row_len) ?l) with (positive_rows l).
  rewrite sum_positive_rows.
  - rewrite size_by_rows.
    + assert (list_to_set path ⊆ cells shape) as Hsub.
      { intros x Hx%elem_of_list_to_set. by apply Hpath. }
      rewrite size_difference by done.
      apply subseteq_size in Hsub as Hle.
      rewrite size_list_to_set in * by done.
      rewrite <-size_cells by done. lia.
    + intros x [Hx _]%elem_of_difference. by apply cells_rows.
  - apply Forall_fmap, Forall_forall. intros r _. simpl. lia.
Qed.

Lemma residual_shape_cells (path : list cell) (mu : list Z) :
  cells shape ∖ list_to_set path = cells mu →
  length mu = length shape →
  Forall (λ x, 0 ≤ x) mu →
  residual_shape shape path = positive_rows mu.
Proof.
  intros Hcells Hlen Hmu. unfold residual_shape.
  by rewrite Hcells, <-Hlen, rows_of_cells.
Qed.

Lemma record_hook_strip (path : list cell) (mu : list Z) hooks :
  NoDup path →
  (∀ x, x ∈ path → x ∈ cells shape) →
  Z.of_nat (length path) = hook_length →
  cells shape ∖ list_to_set path = cells mu →
  length mu = length shape →
  is_diagram mu →
  record_hook shape hook_length path hooks
  = hooks ++ [(positive_rows mu, rows_spanned path - 1)].
Proof.
  intros Hnodup Hpath Hlen Hcells Hmu [Hnonneg Hsorted].
  unfold record_hook.
  rewrite bool_decide_eq_true_2
    by (rewrite residual_shape_sum by done; lia).
  rewrite (residual_shape_cells path mu) by done.
  by rewrite sorted_reverse_sorted by by apply Sorted_positive_rows.
Qed.
End record_hook.

(** ** The search returns *)

Section rim_hooks_total.
Variable shape : list Z.
Variable hook_length : Z.

(** Every call extends the path by a cell of the diagram that was not
    visited before, so the unvisited cells bound the depth. *)
Lemma dfs_returns fuel path visited hooks :
  path ≠ [] →
  (size (cells shape ∖ visited) < fuel)%nat →
  ∃ hs, dfs shape hook_length fuel path visited hooks = Ok hs.
Proof.
  revert path visited hooks.
  induction fuel as [|fuel IH]; intros path visited hooks Hpath Hfuel;
    [lia|].
  simpl. case_bool_decide; [eauto|].
  apply last_is_Some in Hpath as [lst Hlst].
  unfold index_last. rewrite Hlst. simpl.
  destruct (for_each_invariant (λ _, True) [(-1, 0); (0, -1)]
    (try_extend shape (dfs shape hook_length fuel) path visited lst) hooks)
    as (hs & Hhs & _); [done| |eauto].
  intros acc d _ _. unfold try_extend.
  destruct (bool_decide (_ ∈ _)) eqn:Hin; simpl; [|eauto].
  destruct (bool_decide (_ ∉ _)) eqn:Hnew; simpl; [|eauto].
  destruct (is_border _ _); [|eauto].
  apply bool_decide_eq_true in Hin, Hnew.
  destruct (IH (path ++ [(lst.1 + d.1, lst.2 + d.2)])
               (visited ∪ {[(lst.1 + d.1, lst.2 + d.2)]}) acc)
    as [hs Hhs]; [by destruct path| |eauto].
  assert (cells shape ∖ (visited ∪ {[(lst.1 + d.1, lst.2 + d.2)]})
          ⊂ cells shape ∖ visited) as Hsub%subset_size; [|lia].
  split.
  - intros x [Hx Hv]%elem_of_difference. apply elem_of_difference.
    split; [done|]. intros ?. apply Hv, elem_of_union. by left.
  - intros Hsub.
    assert ((lst.1 + d.1, lst.2 + d.2) ∈ cells shape ∖ visited) as Hn
      by by apply elem_of_difference.
    apply Hsub, elem_of_difference in Hn as [_ Hn]. apply Hn.
    apply elem_of_union. right. by apply elem_of_singleton.
Qed.

Lemma rim_hooks_returns :
  ∃ hs, rim_hooks shape hook_length = Ok hs.
Proof.
  unfold rim_hooks.
  destruct (for_each_invariant (λ _, True) (corners shape)
    (λ hooks corner,
      dfs shape hook_length (size (cells shape)) [corner] {[corner]} hooks)
    []) as (hs & Hhs & _); [done| |eauto].
  intros acc corner Hcorner _.
  apply list_elem_of_filter in Hcorner as [_ Hcorner%elem_of_elements].
  destruct (dfs_returns (size (cells shape)) [corner] {[corner]} acc)
    as [hs Hhs]; [done| |eauto].
  apply subset_size. split.
  - intros x [Hx _]%elem_of_difference. done.
  - intros Hsub. apply Hsub, elem_of_difference in Hcorner as [_ Hn].
    apply Hn. by apply elem_of_singleton.
Qed.
End rim_hooks_total.

Lemma mn_returns (cycles : list Z) (shape : list Z) :
  ∃ v, mn shape cycles = Ok v.
Proof.
  revert shape. induction cycles as [|c rest IH]; intros shape; simpl.
  - eauto.
  - destruct (rim_hooks_returns shape c) as [hooks ->]. simpl.
    destruct (for_each_invariant (λ _, True) hooks
      (λ total h, v ← mn h.1 rest; Ok (total + (-1) ^ h.2 * v)) 0)
      as (v & Hv & _); [done| |eauto].
    intros total h _ _. destruct (IH h.1) as [v ->]. simpl. eauto.
Qed.

(** ** The search from a corner of a partition *)

Lemma elem_of_corners (shape : list Z) (r c : Z) :
  (r, c) ∈ corners shape ↔
  0 ≤ r ∧ 0 ≤ c ∧ row_length shape r = c + 1
  ∧ (row_length shape (r + 1) ≤ c ∨ r + 1 < 0).
Proof.
  unfold corners. rewrite list_elem_of_filter, elem_of_elements. simpl.
  rewrite !elem_of_cells. lia.
Qed.

Lemma is_border_true (shape : list Z) (r c : Z) :
  is_border shape (r, c) = true ↔
  ¬ (0 ≤ r ∧ 0 ≤ c + 1 < row_length shape r)
  ∨ ¬ (0 ≤ r + 1 ∧ 0 ≤ c < row_length shape (r + 1)).
Proof.
  unfold is_border. rewrite bool_decide_eq_true. simpl.
  by rewrite !elem_of_cells.
Qed.

Section try_extend.
Variable shape : list Z.
Variable recurse : list cell → gset cell → list hook → result (list hook).

Lemma try_extend_taken path visited (lst : cell) hooks (d : Z * Z) r c :
  (lst.1 + d.1, lst.2 + d.2) = (r, c) →
  (r, c) ∈ cells shape →
  (r, c) ∉ visited →
  is_border shape (r, c) = true →
  try_extend shape recurse path visited lst hooks d
  = recurse (path ++ [(r, c)]) (visited ∪ {[(r, c)]}) hooks.
Proof.
  intros Hnxt Hin Hnew Hborder. unfold try_extend. rewrite Hnxt, Hborder.
  by rewrite !bool_decide_eq_true_2.
Qed.

Lemma try_extend_not_taken path visited (lst : cell) hooks (d : Z * Z) r c :
  (lst.1 + d.1, lst.2 + d.2) = (r, c) →
  (r, c) ∉ cells shape ∨ is_border shape (r, c) = false →
  try_extend shape recurse path visited lst hooks d = Ok hooks.
Proof.
  intros Hnxt Hdead. unfold try_extend. rewrite Hnxt.
  destruct Hdead as [Hout| ->].
  - by rewrite (bool_decide_eq_false_2 _ Hout).
  - by rewrite andb_false_r.
Qed.
End try_extend.

Section search.
Variable shape : list Z.
Variable hook_length : Z.
Hypothesis shape_partition : is_partition shape.
Hypothesis hook_length_pos : 0 < hook_length.

Variables r0 c0 : Z.
Hypothesis corner : (r0, c0) ∈ corners shape.

Abbreviation rl := (row_length shape).

Local Lemma shape_diagram : is_diagram shape.
Proof. by apply is_partition_diagram. Qed.

Local Lemma corner_facts :
  0 ≤ r0 ∧ 0 ≤ c0 ∧ rl r0 = c0 + 1 ∧ rl (r0 + 1) ≤ c0.
Proof. apply elem_of_corners in corner. lia. Qed.

Lemma tall_rows (k r : Z) :
  tall shape (r0, c0) k → r0 - k < r ≤ r0 → 0 ≤ r ∧ rl r = c0 + 1.
Proof.
  unfold tall. simpl. intros [Hk Htop] Hr.
  destruct corner_facts as (_ & _ & Hbottom & _).
  pose proof (row_length_le shape (r0 - k + 1) r shape_diagram).
  pose proof (row_length_le shape r r0 shape_diagram). lia.
Qed.

Lemma tall_le (k k' : Z) :
  tall shape (r0, c0) k' → 1 ≤ k ≤ k' → tall shape (r0, c0) k.
Proof.
  intros Htall Hk. destruct (tall_rows k' (r0 - k + 1) Htall); [lia|].
  by split.
Qed.

Lemma wide_le (k k' : Z) :
  wide shape (r0, c0) k' → k ≤ k' → wide shape (r0, c0) k.
Proof. unfold wide. simpl. lia. Qed.

Lemma tall_1 : tall shape (r0, c0) 1.
Proof.
  unfold tall. simpl. destruct corner_facts as (? & ? & ? & ?).
  replace (r0 - 1 + 1) with r0 by lia. lia.
Qed.

Lemma wide_1 : wide shape (r0, c0) 1.
Proof. unfold wide. simpl. destruct corner_facts as (? & ? & ? & ?). lia. Qed.

(** *** One step of the search *)

Section step.
Variable recurse :
  list cell → gset cell → list hook → result (list hook).
Variable k : Z.
Variable hooks : list hook.

Lemma up_from_vertical :
  1 ≤ k → tall shape (r0, c0) k →
  try_extend shape recurse (vertical_strip r0 c0 k)
    (list_to_set (vertical_strip r0 c0 k)) (r0 - k + 1, c0) hooks (-1, 0)
  = if decide (tall shape (r0, c0) (k + 1))
    then recurse (vertical_strip r0 c0 (k + 1))
           (list_to_set (vertical_strip r0 c0 (k + 1))) hooks
    else Ok hooks.
Proof.
  intros Hk Htall.
  destruct (tall_rows k (r0 - k + 1) Htall) as [Hr Hrow]; [lia|].
  destruct corner_facts as (Hr0 & Hc0 & Hbottom & Hcorner).
  pose proof (row_length_succ_le shape (r0 - k) shape_diagram) as Hmono.
  case_decide as Hnext.
  - destruct Hnext as [Hr' Hrow']. simpl in Hr', Hrow'.
    replace (r0 - (k + 1) + 1) with (r0 - k) in * by lia.
    rewrite (try_extend_taken _ _ _ _ _ _ _ (r0 - k) c0).
    + by rewrite vertical_strip_snoc, list_to_set_snoc_L by lia.
    + simpl. f_equal; lia.
    + apply elem_of_cells. lia.
    + rewrite elem_of_list_to_set, elem_of_vertical_strip. lia.
    + apply is_border_true. lia.
  - apply (try_extend_not_taken _ _ _ _ _ _ _ (r0 - k) c0).
    + simpl. f_equal; lia.
    + unfold tall in Hnext. simpl in Hnext.
      replace (r0 - (k + 1) + 1) with (r0 - k) in * by lia.
      destruct (decide (0 ≤ r0 - k)) as [Hr'|Hr'].
      * right. apply not_true_is_false. rewrite is_border_true.
        specialize (Hmono Hr'). lia.
      * left. rewrite elem_of_cells. lia.
Qed.

Lemma left_from_vertical :
  2 ≤ k → tall shape (r0, c0) k →
  try_extend shape recurse (vertical_strip r0 c0 k)
    (list_to_set (vertical_strip r0 c0 k)) (r0 - k + 1, c0) hooks (0, -1)
  = Ok hooks.
Proof.
  intros Hk Htall.
  destruct (tall_rows k (r0 - k + 1) Htall) as [Hr Hrow]; [lia|].
  destruct (tall_rows k (r0 - k + 1 + 1) Htall) as [_ Hrow']; [lia|].
  destruct corner_facts as (Hr0 & Hc0 & Hbottom & Hcorner).
  apply (try_extend_not_taken _ _ _ _ _ _ _ (r0 - k + 1) (c0 - 1)).
  - simpl. f_equal; lia.
  - destruct (decide (0 ≤ c0 - 1)).
    + right. apply not_true_is_false. rewrite is_border_true. lia.
    + left. rewrite elem_of_cells. lia.
Qed.

Lemma left_from_horizontal :
  1 ≤ k → wide shape (r0, c0) k →
  try_extend shape recurse (horizontal_strip r0 c0 k)
    (list_to_set (horizontal_strip r0 c0 k)) (r0, c0 - k + 1) hooks
    (0, -1)
  = if decide (wide shape (r0, c0) (k + 1))
    then recurse (horizontal_strip r0 c0 (k + 1))
           (list_to_set (horizontal_strip r0 c0 (k + 1))) hooks
    else Ok hooks.
Proof.
  intros Hk [Hc Hbelow]. simpl in Hc, Hbelow.
  destruct corner_facts as (Hr0 & Hc0 & Hrow & Hcorner).
  pose proof (row_length_nonneg shape (r0 + 1)
    (proj1 shape_diagram)) as Hnonneg.
  unfold wide. simpl. case_decide as Hnext.
  - rewrite (try_extend_taken _ _ _ _ _ _ _ r0 (c0 - k)).
    + by rewrite horizontal_strip_snoc, list_to_set_snoc_L by lia.
    + simpl. f_equal; lia.
    + apply elem_of_cells. lia.
    + rewrite elem_of_list_to_set, elem_of_horizontal_strip. lia.
    + apply is_border_true. lia.
  - apply (try_extend_not_taken _ _ _ _ _ _ _ r0 (c0 - k)).
    + simpl. f_equal; lia.
    + destruct (decide (0 ≤ c0 - k)).
      * right. apply not_true_is_false. rewrite is_border_true. lia.
      * left. rewrite elem_of_cells. lia.
Qed.

Lemma up_from_horizontal :
  2 ≤ k → wide shape (r0, c0) k →
  try_extend shape recurse (horizontal_strip r0 c0 k)
    (list_to_set (horizontal_strip r0 c0 k)) (r0, c0 - k + 1) hooks
    (-1, 0)
  = Ok hooks.
Proof.
  intros Hk [Hc Hbelow]. simpl in Hc, Hbelow.
  destruct corner_facts as (Hr0 & Hc0 & Hrow & Hcorner).
  apply (try_extend_not_taken _ _ _ _ _ _ _ (r0 - 1) (c0 - k + 1)).
  - simpl. f_equal; lia.
  - destruct (decide (0 ≤ r0 - 1)) as [Hr|Hr].
    + right. apply not_true_is_false. rewrite is_border_true.
      pose proof (row_length_succ_le shape (r0 - 1) shape_diagram Hr).
      replace (r0 - 1 + 1) with r0 in * by lia. lia.
    + left. rewrite elem_of_cells. lia.
Qed.
End step.

(** *** Whole searches *)

Lemma for_each_two {A S : Type} (a b : A) (body : S → A → result S)
    (acc : S) :
  for_each [a; b] body acc = acc' ← body acc a; body acc' b.
Proof.
  simpl. destruct (body acc a) as [acc'|]; simpl; [|done].
  by destruct (body acc' b).
Qed.

Lemma dfs_done fuel path visited hooks :
  Z.of_nat (length path) = hook_length →
  dfs shape hook_length (S fuel) path visited hooks
  = Ok (record_hook shape hook_length path hooks).
Proof. intros Hlen. simpl. by rewrite bool_decide_eq_true_2. Qed.

Lemma dfs_unfold fuel path visited hooks lst :
  Z.of_nat (length path) ≠ hook_length →
  last path = Some lst →
  dfs shape hook_length (S fuel) path visited hooks
  = hooks' ← try_extend shape (dfs shape hook_length fuel) path visited lst
               hooks (-1, 0);
    try_extend shape (dfs shape hook_length fuel) path visited lst hooks'
      (0, -1).
Proof.
  intros Hlen Hlst. rewrite <-for_each_two. simpl.
  rewrite bool_decide_eq_false_2 by done.
  unfold index_last. by rewrite Hlst.
Qed.

Lemma last_vertical_strip k :
  1 ≤ k → last (vertical_strip r0 c0 k) = Some (r0 - k + 1, c0).
Proof.
  intros Hk. replace k with (k - 1 + 1) at 1 by lia.
  rewrite vertical_strip_snoc, last_snoc by lia. do 2 f_equal. lia.
Qed.

Lemma last_horizontal_strip k :
  1 ≤ k → last (horizontal_strip r0 c0 k) = Some (r0, c0 - k + 1).
Proof.
  intros Hk. replace k with (k - 1 + 1) at 1 by lia.
  rewrite horizontal_strip_snoc, last_snoc by lia. do 2 f_equal. lia.
Qed.

(** Once the path has left the corner upwards it can only go on upwards. *)
Lemma dfs_vertical fuel k hooks hs :
  2 ≤ k ≤ hook_length →
  tall shape (r0, c0) k →
  dfs shape hook_length fuel (vertical_strip r0 c0 k)
    (list_to_set (vertical_strip r0 c0 k)) hooks = Ok hs →
  hs = if decide (tall shape (r0, c0) hook_length)
       then record_hook shape hook_length
              (vertical_strip r0 c0 hook_length) hooks
       else hooks.
Proof.
  revert k hooks hs.
  induction fuel as [|fuel IH]; intros k hooks hs Hk Htall Hdfs; [done|].
  destruct (decide (k = hook_length)) as [->|Hne].
  - rewrite dfs_done in Hdfs by (rewrite length_vertical_strip; lia).
    injection Hdfs as <-. by rewrite decide_True.
  - rewrite (dfs_unfold _ _ _ _ (r0 - k + 1, c0)) in Hdfs;
      [|rewrite length_vertical_strip; lia|apply last_vertical_strip; lia].
    apply bind_Ok in Hdfs as (hooks' & Hup & Hleft).
    rewrite left_from_vertical in Hleft by (done || lia).
    injection Hleft as <-.
    rewrite up_from_vertical in Hup by (done || lia).
    case_decide as Hnext.
    + apply (IH (k + 1)); [lia|done..].
    + injection Hup as <-. rewrite decide_False; [done|].
      intros Hall. apply Hnext, (tall_le _ hook_length); [done|lia].
Qed.

(** Once the path has left the corner to the left it can only go on to
    the left. *)
Lemma dfs_horizontal fuel k hooks hs :
  2 ≤ k ≤ hook_length →
  wide shape (r0, c0) k →
  dfs shape hook_length fuel (horizontal_strip r0 c0 k)
    (list_to_set (horizontal_strip r0 c0 k)) hooks = Ok hs →
  hs = if decide (wide shape (r0, c0) hook_length)
       then record_hook shape hook_length
              (horizontal_strip r0 c0 hook_length) hooks
       else hooks.
Proof.
  revert k hooks hs.
  induction fuel as [|fuel IH]; intros k hooks hs Hk Hwide Hdfs; [done|].
  destruct (decide (k = hook_length)) as [->|Hne].
  - rewrite dfs_done in Hdfs by (rewrite length_horizontal_strip; lia).
    injection Hdfs as <-. by rewrite decide_True.
  - rewrite (dfs_unfold _ _ _ _ (r0, c0 - k + 1)) in Hdfs;
      [|rewrite length_horizontal_strip; lia
       |apply last_horizontal_strip; lia].
    apply bind_Ok in Hdfs as (hooks' & Hup & Hleft).
    rewrite up_from_horizontal in Hup by (done || lia).
    injection Hup as <-.
    rewrite left_from_horizontal in Hleft by (done || lia).
    case_decide as Hnext.
    + apply (IH (k + 1)); [lia|done..].
    + injection Hleft as <-. rewrite decide_False; [done|].
      intros Hall. apply Hnext, (wide_le _ hook_length); [done|lia].
Qed.

(** The search from a corner: at most one hook upwards, then at most one
    hook to the left. *)
Lemma dfs_corner fuel hooks hs :
  dfs shape hook_length fuel [(r0, c0)] {[(r0, c0)]} hooks = Ok hs →
  hs =
    let hooks' :=
      if decide (2 ≤ hook_length ∧ tall shape (r0, c0) hook_length)
      then record_hook shape hook_length
             (vertical_strip r0 c0 hook_length) hooks
      else hooks in
    if decide (wide shape (r0, c0) hook_length)
    then record_hook shape hook_length
           (horizontal_strip r0 c0 hook_length) hooks'
    else hooks'.
Proof.
  destruct fuel as [|fuel]; [done|]. intros Hdfs.
  destruct (decide (hook_length = 1)) as [Hone|Hmore].
  - rewrite dfs_done in Hdfs by (simpl; lia). injection Hdfs as <-.
    cbv zeta.
    destruct (decide (2 ≤ hook_length ∧ _)) as [[? _]|_]; [lia|].
    rewrite Hone, decide_True by apply wide_1.
    by rewrite horizontal_strip_1.
  - rewrite (dfs_unfold _ _ _ _ (r0, c0)) in Hdfs by (done || simpl; lia).
    apply bind_Ok in Hdfs as (hooks' & Hup & Hleft).
    assert (hooks' =
      if decide (2 ≤ hook_length ∧ tall shape (r0, c0) hook_length)
      then record_hook shape hook_length
             (vertical_strip r0 c0 hook_length) hooks
      else hooks) as <-.
    { pose proof (up_from_vertical (dfs shape hook_length fuel) 1 hooks)
        as Hstep.
      rewrite vertical_strip_1, list_to_set_singleton_L in Hstep.
      replace (r0 - 1 + 1) with r0 in Hstep by lia.
      rewrite Hstep in Hup by (apply tall_1 || lia). clear Hstep.
      destruct (decide (tall shape (r0, c0) (1 + 1))) as [Htwo|Htwo].
      - apply dfs_vertical in Hup; [|lia|done]. subst hooks'.
        destruct (decide (tall shape (r0, c0) hook_length)).
        + by rewrite decide_True by (split; [lia|done]).
        + by rewrite decide_False by tauto.
      - injection Hup as <-. rewrite decide_False; [done|].
        intros [_ Hall]. apply Htwo, (tall_le _ hook_length); [done|lia]. }
    cbv zeta.
    pose proof (left_from_horizontal (dfs shape hook_length fuel) 1 hooks')
      as Hstep.
    rewrite horizontal_strip_1, list_to_set_singleton_L in Hstep.
    replace (c0 - 1 + 1) with c0 in Hstep by lia.
    rewrite Hstep in Hleft by (apply wide_1 || lia). clear Hstep.
    destruct (decide (wide shape (r0, c0) (1 + 1))) as [Htwo|Htwo].
    + apply dfs_horizontal in Hleft; [done|lia|done].
    + injection Hleft as <-. rewrite decide_False; [done|].
      intros Hall. apply Htwo, (wide_le _ hook_length); [done|lia].
Qed.
(** *** What is left of the diagram *)

Lemma corner_row_in_shape : r0 < Z.of_nat (length shape).
Proof.
  destruct corner_facts as (? & ? & Hrow & _).
  apply (row_length_positive shape r0 (proj1 shape_partition)). lia.
Qed.

Lemma length_remove_vertical k :
  length (remove_vertical shape r0 k) = length shape.
Proof.
  unfold remove_vertical, range. rewrite length_fmap, length_seqZ. lia.
Qed.

Lemma length_remove_horizontal k :
  length (remove_horizontal shape r0 k) = length shape.
Proof.
  unfold remove_horizontal, range. rewrite length_fmap, length_seqZ. lia.
Qed.

Lemma vertical_strip_cells k x :
  tall shape (r0, c0) k → x ∈ vertical_strip r0 c0 k → x ∈ cells shape.
Proof.
  destruct x as [r c]. intros Htall [-> Hr]%elem_of_vertical_strip.
  destruct (tall_rows k r Htall Hr) as [? ?].
  destruct corner_facts as (? & ? & _). apply elem_of_cells. lia.
Qed.

Lemma horizontal_strip_cells k x :
  wide shape (r0, c0) k → x ∈ horizontal_strip r0 c0 k → x ∈ cells shape.
Proof.
  destruct x as [r c]. intros [Hk _] [-> Hc]%elem_of_horizontal_strip.
  simpl in Hk. destruct corner_facts as (? & ? & ? & _).
  apply elem_of_cells. lia.
Qed.

Lemma cells_remove_vertical k :
  tall shape (r0, c0) k →
  cells shape ∖ list_to_set (vertical_strip r0 c0 k)
  = cells (remove_vertical shape r0 k).
Proof.
  intros Htall. apply set_eq. intros [r c].
  rewrite elem_of_difference, elem_of_list_to_set, elem_of_vertical_strip,
    !elem_of_cells.
  unfold remove_vertical. rewrite row_length_fmap_range.
  pose proof (row_length_positive shape r (proj1 shape_partition)) as Hin.
  pose proof (row_length_nonneg shape r (proj1 shape_diagram)).
  pose proof corner_row_in_shape.
  destruct (decide (r0 - k < r ≤ r0)) as [Hs|Hs];
    [destruct (tall_rows k r Htall Hs)|]; case_decide; lia.
Qed.

Lemma cells_remove_horizontal k :
  1 ≤ k →
  wide shape (r0, c0) k →
  cells shape ∖ list_to_set (horizontal_strip r0 c0 k)
  = cells (remove_horizontal shape r0 k).
Proof.
  intros Hk [Hc _]. simpl in Hc. apply set_eq. intros [r c].
  rewrite elem_of_difference, elem_of_list_to_set,
    elem_of_horizontal_strip, !elem_of_cells.
  unfold remove_horizontal. rewrite row_length_fmap_range.
  pose proof (row_length_positive shape r (proj1 shape_partition)) as Hin.
  pose proof (row_length_nonneg shape r (proj1 shape_diagram)).
  pose proof corner_row_in_shape.
  destruct corner_facts as (? & ? & ? & _).
  destruct (decide (r = r0)) as [->|Hs]; case_decide; lia.
Qed.

Lemma is_diagram_remove_vertical k :
  tall shape (r0, c0) k → is_diagram (remove_vertical shape r0 k).
Proof.
  intros Htall. destruct corner_facts as (? & ? & ? & ?).
  apply is_diagram_fmap_range.
  - intros r Hr.
    pose proof (row_length_nonneg shape r (proj1 shape_diagram)).
    case_decide as Hs; [destruct (tall_rows k r Htall Hs)|]; lia.
  - intros r Hr _.
    pose proof (row_length_succ_le shape r shape_diagram Hr).
    destruct (decide (r0 - k < r + 1 ≤ r0)) as [Hs|Hs];
      [destruct (tall_rows k (r + 1) Htall Hs)|];
      (destruct (decide (r0 - k < r ≤ r0)) as [Hs'|Hs'];
        [destruct (tall_rows k r Htall Hs')|]);
      try lia.
    replace r with r0 in * by lia. lia.
Qed.

Lemma is_diagram_remove_horizontal k :
  1 ≤ k → wide shape (r0, c0) k → is_diagram (remove_horizontal shape r0 k).
Proof.
  intros Hk [Hc Hbelow]. simpl in Hc, Hbelow.
  destruct corner_facts as (? & ? & ? & ?).
  apply is_diagram_fmap_range.
  - intros r Hr.
    pose proof (row_length_nonneg shape r (proj1 shape_diagram)).
    case_decide as Hs; [subst r|]; lia.
  - intros r Hr _.
    pose proof (row_length_succ_le shape r shape_diagram Hr).
    pose proof (row_length_nonneg shape (r + 1) (proj1 shape_diagram)).
    destruct (decide (r + 1 = r0)) as [Hs|Hs];
      (destruct (decide (r = r0)) as [Hs'|Hs']); try lia.
    replace r with r0 in * by lia. lia.
Qed.

Lemma record_vertical hooks :
  tall shape (r0, c0) hook_length →
  record_hook shape hook_length (vertical_strip r0 c0 hook_length) hooks
  = hooks ++ [(positive_rows (remove_vertical shape r0 hook_length),
               hook_length - 1)].
Proof.
  intros Htall.
  rewrite (record_hook_strip _ _ (proj1 shape_diagram) _
             (remove_vertical shape r0 hook_length)).
  - by rewrite rows_spanned_vertical_strip by lia.
  - apply NoDup_vertical_strip.
  - intros x. by apply vertical_strip_cells.
  - rewrite length_vertical_strip. lia.
  - by apply cells_remove_vertical.
  - apply length_remove_vertical.
  - by apply is_diagram_remove_vertical.
Qed.

Lemma record_horizontal hooks :
  wide shape (r0, c0) hook_length →
  record_hook shape hook_length (horizontal_strip r0 c0 hook_length) hooks
  = hooks ++ [(positive_rows (remove_horizontal shape r0 hook_length), 0)].
Proof.
  intros Hwide.
  rewrite (record_hook_strip _ _ (proj1 shape_diagram) _
             (remove_horizontal shape r0 hook_length)).
  - by rewrite rows_spanned_horizontal_strip by lia.
  - apply NoDup_horizontal_strip.
  - intros x. by apply horizontal_strip_cells.
  - rewrite length_horizontal_strip. lia.
  - apply cells_remove_horizontal; [lia|done].
  - apply length_remove_horizontal.
  - apply is_diagram_remove_horizontal; [lia|done].
Qed.

Lemma dfs_corner_hooks fuel hooks hs :
  dfs shape hook_length fuel [(r0, c0)] {[(r0, c0)]} hooks = Ok hs →
  hs = hooks ++ hooks_at shape hook_length (r0, c0).
Proof.
  intros ->%dfs_corner. cbv zeta. unfold hooks_at. simpl.
  destruct (decide (2 ≤ hook_length ∧ _)) as [[_ Htall]|_];
    destruct (decide (wide _ _ _)) as [Hwide|_];
    rewrite ?record_horizontal, ?record_vertical by done;
    by rewrite <-?app_assoc, ?app_nil_r.
Qed.
End search.

(** On a partition, [rim_hooks] returns the hooks of every corner, corner
    after corner. *)
Lemma rim_hooks_partition (shape : list Z) (hook_length : Z) :
  is_partition shape →
  0 < hook_length →
  rim_hooks shape hook_length
  = Ok (corners shape ≫= hooks_at shape hook_length).
Proof.
  intros Hshape Hlen. unfold rim_hooks.
  assert (∀ seen todo, corners shape = seen ++ todo →
    for_each todo (λ hooks corner,
      dfs shape hook_length (size (cells shape)) [corner] {[corner]} hooks)
      (seen ≫= hooks_at shape hook_length)
    = Ok (corners shape ≫= hooks_at shape hook_length)) as Hloop.
  { intros seen todo. revert seen.
    induction todo as [|[r c] todo IH]; intros seen Hsplit; simpl.
    - by rewrite Hsplit, app_nil_r.
    - assert ((r, c) ∈ corners shape) as Hcorner.
      { rewrite Hsplit. apply elem_of_app. right. left. }
      destruct (dfs_returns shape hook_length (size (cells shape)) [(r, c)]
        {[(r, c)]} (seen ≫= hooks_at shape hook_length)) as [hs Hhs].
      + done.
      + apply subset_size. split.
        * intros x [Hx _]%elem_of_difference. done.
        * intros Hsub.
          apply list_elem_of_filter in Hcorner as [_ Hin%elem_of_elements].
          apply Hsub, elem_of_difference in Hin as [_ Hn].
          apply Hn. by apply elem_of_singleton.
      + rewrite Hhs. simpl.
        apply dfs_corner_hooks in Hhs; [|done..]. subst hs.
        specialize (IH (seen ++ [(r, c)])).
        rewrite bind_app in IH. simpl in IH. rewrite app_nil_r in IH.
        apply IH. by rewrite <-app_assoc. }
  apply (Hloop [] (corners shape)). done.
Qed.

(** ** [character_M] does not depend on the order of the cycles *)

Lemma for_each_sum {A : Type} (xs : list A) (body : Z → A → result Z)
    (g : A → Z) (acc : Z) :
  (∀ total x, x ∈ xs → body total x = Ok (total + g x)) →
  for_each xs body acc = Ok (acc + sum (g <$> xs)).
Proof.
  revert acc. induction xs as [|x xs IH]; intros acc Hbody; csimpl.
  - f_equal. lia.
  - rewrite Hbody by left. csimpl. rewrite IH.
    + f_equal. lia.
    + intros total y Hy. apply Hbody. by right.
Qed.

Lemma backtrack_placements (partition cycle_lengths : list Z) fuel idx
    remaining :
  (idx ≤ length cycle_lengths)%nat →
  (length cycle_lengths - idx < fuel)%nat →
  length remaining = rows partition →
  backtrack partition cycle_lengths fuel idx remaining
  = Ok (placements (rows partition) (drop idx cycle_lengths) remaining).
Proof.
  revert idx remaining.
  induction fuel as [|fuel IH]; intros idx remaining Hidx Hfuel Hlen; [lia|].
  simpl. case_bool_decide as Hend.
  - subst idx. by rewrite drop_all.
  - destruct (lookup_lt_is_Some_2 cycle_lengths idx) as [len Hl]; [lia|].
    rewrite (index_lookup _ _ _ Hl), (drop_S _ _ _ Hl). simpl.
    erewrite for_each_sum; [by rewrite Z.add_0_l|].
    intros total i [_ Hi]%elem_of_seq. simpl.
    destruct (lookup_lt_is_Some_2 remaining i) as [ri Hri]; [lia|].
    rewrite (index_lookup _ _ _ Hri), Hri. simpl. case_bool_decide.
    + rewrite IH by (rewrite ?length_insert; lia). done.
    + f_equal. lia.
Qed.

Lemma sum_fmap_ext {A : Type} (f g : A → Z) (l : list A) :
  (∀ x, x ∈ l → f x = g x) → sum (f <$> l) = sum (g <$> l).
Proof.
  intros Hfg. f_equal. apply list_fmap_ext. intros i x Hx. apply Hfg.
  by apply list_elem_of_lookup_2 in Hx.
Qed.

Lemma sum_fmap_zero {A : Type} (l : list A) : sum ((λ _, 0) <$> l) = 0.
Proof. induction l as [|x l IH]; csimpl; lia. Qed.

Lemma sum_fmap_add {A : Type} (f g : A → Z) (l : list A) :
  sum ((λ x, f x + g x) <$> l) = sum (f <$> l) + sum (g <$> l).
Proof. induction l as [|x l IH]; csimpl; lia. Qed.

Lemma sum_exchange {A B : Type} (f : A → B → Z) (l : list A) (k : list B) :
  sum ((λ x, sum ((λ y, f x y) <$> k)) <$> l)
  = sum ((λ y, sum ((λ x, f x y) <$> l)) <$> k).
Proof.
  induction l as [|x l IH]; csimpl.
  - by rewrite sum_fmap_zero.
  - by rewrite IH, sum_fmap_add.
Qed.

Lemma placements_two (rows : nat) (rest remaining : list Z) (a b : Z) :
  placements rows (a :: b :: rest) remaining
  = sum ((λ i, sum ((λ j, place_two rows rest remaining a b i j)
                      <$> seq 0 rows)) <$> seq 0 rows).
Proof.
  simpl. apply sum_fmap_ext. intros i _. unfold place_two.
  destruct (remaining !! i) as [ri|]; [|by rewrite sum_fmap_zero].
  case_bool_decide; [done|by rewrite sum_fmap_zero].
Qed.

Lemma place_two_swap (rows : nat) (rest remaining : list Z) (a b : Z)
    (i j : nat) :
  0 ≤ a → 0 ≤ b →
  place_two rows rest remaining a b i j
  = place_two rows rest remaining b a j i.
Proof.
  intros Ha Hb. unfold place_two. destruct (decide (i = j)) as [->|Hij].
  - destruct (remaining !! j) as [r|] eqn:Hr; [|done].
    apply lookup_lt_Some in Hr as Hj.
    rewrite !list_lookup_insert_eq, !list_insert_insert_eq by done.
    replace (r - a - b) with (r - b - a) by lia.
    repeat case_bool_decide; (done || lia).
  - destruct (remaining !! i) as [ri|] eqn:Hri,
      (remaining !! j) as [rj|] eqn:Hrj;
      rewrite ?list_lookup_insert_ne, ?Hri, ?Hrj by done;
      repeat case_bool_decide; try done.
    by rewrite list_insert_insert_ne.
Qed.

Lemma placements_Permutation (rows : nat) (cycles cycles' : list Z) :
  Forall (λ x, 0 ≤ x) cycles →
  cycles ≡ₚ cycles' →
  ∀ remaining,
    placements rows cycles remaining = placements rows cycles' remaining.
Proof.
  intros Hpos Hperm.
  induction Hperm as [|x l l' _ IH|x y l|l l' l'' Hperm1 IH1 _ IH2];
    intros remaining.
  - done.
  - apply Forall_cons in Hpos as [_ Hpos]. simpl.
    apply sum_fmap_ext. intros i _.
    destruct (remaining !! i) as [ri|]; [|done].
    case_bool_decide; [|done]. by apply IH.
  - apply Forall_cons in Hpos as [Hy Hpos].
    apply Forall_cons in Hpos as [Hx _].
    rewrite !placements_two, sum_exchange.
    apply sum_fmap_ext. intros i _. apply sum_fmap_ext. intros j _.
    by apply place_two_swap.
  - rewrite IH1 by done. apply IH2. by rewrite <-Hperm1.
Qed.

(** Reordering the cycles does not change [character_M]. *)
Lemma character_M_Permutation (partition cycles cycles' : list Z) :
  Forall (λ x, 0 ≤ x) cycles →
  cycles ≡ₚ cycles' →
  character_M partition cycles = character_M partition cycles'.
Proof.
  intros Hpos Hperm. unfold character_M.
  rewrite !backtrack_placements by (done || lia).
  f_equal. by apply placements_Permutation.
Qed.

(** ** The sum in [mn] does not depend on the order of the hooks *)

Lemma sum_Permutation (l k : list Z) : l ≡ₚ k → sum l = sum k.
Proof. induction 1; simpl; lia. Qed.

Lemma mn_hooks_Permutation (rest : list Z) (hooks hooks' : list hook)
    (acc : Z) :
  hooks ≡ₚ hooks' →
  for_each hooks (λ total h, v ← mn h.1 rest; Ok (total + (-1) ^ h.2 * v))
    acc
  = for_each hooks' (λ total h, v ← mn h.1 rest; Ok (total + (-1) ^ h.2 * v))
      acc.
Proof.
  intros Hperm.
  pose (g := λ h : hook,
    match mn h.1 rest with Ok v => (-1) ^ h.2 * v | Raise _ => 0 end).
  assert (∀ total h,
    (v ← mn h.1 rest; Ok (total + (-1) ^ h.2 * v)) = Ok (total + g h))
    as Hbody.
  { intros total h. unfold g. by destruct (mn_returns rest h.1) as [v ->]. }
  rewrite !(for_each_sum _ _ g) by (intros; apply Hbody).
  do 2 f_equal. apply sum_Permutation. by rewrite Hperm.
Qed.

(** ** What [rim_hooks] returns on a partition *)

(** Every pair [rim_hooks] returns on a partition comes from a straight
    strip that starts at a corner. *)
Lemma rim_hooks_strips (shape : list Z) (hook_length : Z) (hs : list hook)
    (new_shape : list Z) (height : Z) :
  is_partition shape →
  0 < hook_length →
  rim_hooks shape hook_length = Ok hs →
  (new_shape, height) ∈ hs →
  ∃ r0 c0,
    (r0, c0) ∈ corners shape
    ∧ ((tall shape (r0, c0) hook_length
        ∧ new_shape = positive_rows (remove_vertical shape r0 hook_length)
        ∧ height = hook_length - 1)
       ∨ (wide shape (r0, c0) hook_length
          ∧ new_shape
            = positive_rows (remove_horizontal shape r0 hook_length)
          ∧ height = 0)).
Proof.
  intros Hshape Hlen Hhs Hin.
  rewrite rim_hooks_partition in Hhs by done. injection Hhs as <-.
  apply list_elem_of_bind in Hin as ([r0 c0] & Hin & Hcorner).
  exists r0, c0. split; [done|]. unfold hooks_at in Hin.
  apply elem_of_app in Hin as [Hin|Hin]; case_decide as Hstrip;
    try (by apply elem_of_nil in Hin);
    apply list_elem_of_singleton in Hin as [= -> ->].
  - left. by destruct Hstrip.
  - by right.
Qed.

(** ** One row, one column *)

Lemma NoDup_corners (shape : list Z) : NoDup (corners shape).
Proof. apply NoDup_filter, NoDup_elements. Qed.

Lemma corners_unique (shape : list Z) (x : cell) :
  (∀ y, y ∈ corners shape ↔ y = x) → corners shape = [x].
Proof.
  intros Hx. pose proof (NoDup_corners shape) as Hnodup.
  destruct (corners shape) as [|y [|z l]].
  - pose proof (proj2 (Hx x) eq_refl) as Hin. by apply elem_of_nil in Hin.
  - f_equal. apply Hx. left.
  - assert (y = x) as -> by (apply Hx; left).
    assert (z = x) as -> by (apply Hx; right; left).
    apply NoDup_cons in Hnodup as [Hnotin _]. destruct Hnotin. left.
Qed.

Lemma row_length_nil (r : Z) : row_length [] r = 0.
Proof. apply row_length_outside. simpl. lia. Qed.

Lemma mn_cons (shape : list Z) (c : Z) (rest : list Z) :
  mn shape (c :: rest)
  = hooks ← rim_hooks shape c;
    for_each hooks (λ total h, v ← mn h.1 rest; Ok (total + (-1) ^ h.2 * v))
      0.
Proof. done. Qed.

Lemma is_partition_single_row (m : Z) : 0 < m → is_partition [m].
Proof. intros Hm. split; repeat constructor. done. Qed.

Lemma corners_single_row (m : Z) : 0 < m → corners [m] = [(0, m - 1)].
Proof.
  intros Hm. apply corners_unique. intros [r c].
  rewrite elem_of_corners, !row_length_cons, !row_length_nil. split.
  - intros (Hr & Hc & Hrow & _). case_decide; [|lia]. f_equal; lia.
  - intros [= -> ->]. rewrite decide_True, decide_False by lia. lia.
Qed.

Lemma hooks_at_single_row (m c : Z) :
  0 < c ≤ m → hooks_at [m] c (0, m - 1) = [(positive_rows [m - c], 0)].
Proof.
  intros Hc. unfold hooks_at, tall, wide. simpl.
  rewrite decide_False by lia.
  rewrite decide_True by (rewrite row_length_cons, row_length_nil; simpl; lia).
  unfold remove_horizontal. simpl.
  by rewrite row_length_cons, !decide_True by done.
Qed.

Lemma backtrack_single_row (n : Z) (cycles : list Z) fuel idx :
  Forall (λ x, 0 < x) cycles →
  (idx ≤ length cycles)%nat →
  (length cycles - idx < fuel)%nat →
  backtrack [n] cycles fuel idx [sum (drop idx cycles)] = Ok 1.
Proof.
  intros Hpos. revert idx.
  induction fuel as [|fuel IH]; intros idx Hidx Hfuel; [lia|].
  simpl. case_bool_decide as Hend.
  - subst idx. by rewrite drop_all.
  - destruct (lookup_lt_is_Some_2 cycles idx) as [c Hc]; [lia|].
    rewrite (index_lookup _ _ _ Hc), (drop_S _ _ _ Hc). simpl.
    pose proof (sum_nonneg _ (Forall_drop _ (S idx) _ Hpos)).
    unfold index. simpl. rewrite bool_decide_eq_true_2 by lia. simpl.
    replace (c + sum (drop (S idx) cycles) - c)
      with (sum (drop (S idx) cycles)) by lia.
    rewrite IH by lia. done.
Qed.

Lemma mn_single_row (cycles : list Z) :
  Forall (λ x, 0 < x) cycles →
  mn (positive_rows [sum cycles]) cycles = Ok 1.
Proof.
  induction 1 as [|c rest Hc Hrest IH]; [done|].
  pose proof (sum_nonneg _ Hrest).
  change (sum (c :: rest)) with (c + sum rest).
  unfold positive_rows at 1. rewrite filter_cons, decide_True by lia.
  rewrite filter_nil, mn_cons.
  rewrite rim_hooks_partition by (done || apply is_partition_single_row; lia).
  rewrite corners_single_row by lia. simpl. rewrite app_nil_r.
  rewrite hooks_at_single_row by lia. simpl.
  replace (c + sum rest - c) with (sum rest) by lia.
  rewrite IH. done.
Qed.

Lemma corners_single_column (n : nat) :
  (0 < n)%nat → corners (replicate n 1) = [(Z.of_nat n - 1, 0)].
Proof.
  intros Hn. apply corners_unique. intros [r c].
  rewrite elem_of_corners, !row_length_replicate. split.
  - intros (Hr & Hc & Hrow & Hbelow). repeat case_decide; f_equal; lia.
  - intros [= -> ->]. rewrite decide_True, decide_False by lia. lia.
Qed.

Lemma hooks_at_single_column (n : nat) (c : Z) :
  0 < c ≤ Z.of_nat n →
  hooks_at (replicate n 1) c (Z.of_nat n - 1, 0)
  = [(replicate (Z.to_nat (Z.of_nat n - c)) 1, c - 1)].
Proof.
  intros Hc.
  assert ((Z.of_nat n - 1, 0) ∈ corners (replicate n 1)) as Hcorner.
  { rewrite corners_single_column by lia. left. }
  pose proof (is_partition_replicate n) as Hshape.
  unfold hooks_at. simpl.
  destruct (decide (c = 1)) as [->|Hmore].
  - rewrite decide_False by (intros [? _]; lia).
    assert (wide (replicate n 1) (Z.of_nat n - 1, 0) 1) as Hwide
      by by apply wide_1.
    rewrite decide_True by done. simpl. do 2 f_equal.
    apply partition_ext.
    + apply is_partition_positive_rows,
        (is_diagram_remove_horizontal _ Hshape _ _ Hcorner); [lia|done].
    + by apply Forall_replicate.
    + intros r. rewrite row_length_positive_rows
        by (apply (is_diagram_remove_horizontal _ Hshape _ _ Hcorner);
            [lia|done]).
      unfold remove_horizontal.
      rewrite row_length_fmap_range, !row_length_replicate,
        length_replicate.
      repeat case_decide; lia.
  - assert (tall (replicate n 1) (Z.of_nat n - 1, 0) c) as Htall.
    { unfold tall. simpl. rewrite row_length_replicate.
      rewrite decide_True by lia. lia. }
    rewrite decide_True by (split; [lia|done]).
    rewrite decide_False by (unfold wide; simpl; lia).
    rewrite app_nil_r. do 2 f_equal.
    apply partition_ext.
    + apply is_partition_positive_rows,
        (is_diagram_remove_vertical _ Hshape _ _ Hcorner), Htall.
    + by apply Forall_replicate.
    + intros r. rewrite row_length_positive_rows
        by apply (is_diagram_remove_vertical _ Hshape _ _ Hcorner), Htall.
      unfold remove_vertical.
      rewrite row_length_fmap_range, !row_length_replicate,
        length_replicate.
      repeat case_decide; lia.
Qed.

Lemma mn_single_column (cycles : list Z) :
  Forall (λ x, 0 < x) cycles →
  mn (replicate (Z.to_nat (sum cycles)) 1) cycles
  = Ok ((-1) ^ (sum cycles - Z.of_nat (length cycles))).
Proof.
  induction 1 as [|c rest Hc Hrest IH]; [done|].
  pose proof (sum_ge_length _ Hrest).
  change (sum (c :: rest)) with (c + sum rest).
  rewrite mn_cons, rim_hooks_partition
    by (done || apply is_partition_replicate).
  rewrite corners_single_column by lia. simpl. rewrite app_nil_r.
  rewrite hooks_at_single_column by lia. simpl.
  replace (Z.to_nat (Z.of_nat (Z.to_nat (c + sum rest)) - c))
    with (Z.to_nat (sum rest)) by lia.
  rewrite IH. simpl. f_equal.
  rewrite <-Z.pow_add_r, Z.add_0_l by lia. f_equal. lia.
Qed.

(** ** The hooks found on a partition are all different *)

Lemma bind_all_nil {A B : Type} (f : A → list B) (l : list A) :
  (∀ x, x ∈ l → f x = []) → l ≫= f = [].
Proof.
  induction l as [|x l IH]; intros Hf; [done|].
  rewrite bind_cons, (Hf x) by left. apply IH.
  intros y Hy. apply Hf. by right.
Qed.

Lemma fmap_bind_list {A B C : Type} (f : B → C) (g : A → list B)
    (l : list A) :
  f <$> (l ≫= g) = l ≫= (λ x, f <$> g x).
Proof.
  induction l as [|x l IH]; [done|].
  by rewrite !bind_cons, fmap_app, IH.
Qed.

Lemma positive_rows_row_length (mu1 mu2 : list Z) (r : Z) :
  is_diagram mu1 → is_diagram mu2 →
  positive_rows mu1 = positive_rows mu2 →
  row_length mu1 r = row_length mu2 r.
Proof.
  intros Hmu1 Hmu2 Heq.
  by rewrite <-(row_length_positive_rows mu1), <-(row_length_positive_rows mu2),
    Heq.
Qed.

Lemma elem_of_hooks_at_shapes (shape : list Z) (hook_length : Z) (corner : cell)
    (new_shape : list Z) :
  new_shape ∈ (hooks_at shape hook_length corner).*1 ↔
  (2 ≤ hook_length ∧ tall shape corner hook_length
   ∧ new_shape = positive_rows (remove_vertical shape corner.1 hook_length))
  ∨ (wide shape corner hook_length
     ∧ new_shape
       = positive_rows (remove_horizontal shape corner.1 hook_length)).
Proof.
  unfold hooks_at. rewrite fmap_app, elem_of_app.
  destruct (decide (2 ≤ hook_length ∧ _)) as [[? ?]|Hno];
    destruct (decide (wide _ _ _)) as [?|Hno']; csimpl;
    rewrite ?list_elem_of_singleton, ?elem_of_nil; tauto.
Qed.

Section no_duplicates.
Variable shape : list Z.
Variable hook_length : Z.
Hypothesis shape_partition : is_partition shape.
Hypothesis hook_length_pos : 0 < hook_length.

Lemma corner_in_shape (r c : Z) :
  (r, c) ∈ corners shape →
  0 ≤ r < Z.of_nat (length shape) ∧ row_length shape r = c + 1.
Proof.
  intros Hcorner.
  pose proof (corner_row_in_shape shape shape_partition r c Hcorner).
  apply elem_of_corners in Hcorner. lia.
Qed.

(** Two searches that leave the same shape started at the same corner. *)
Lemma same_shape_same_corner (corner1 corner2 : cell) (new_shape : list Z) :
  corner1 ∈ corners shape →
  corner2 ∈ corners shape →
  new_shape ∈ (hooks_at shape hook_length corner1).*1 →
  new_shape ∈ (hooks_at shape hook_length corner2).*1 →
  corner1 = corner2.
Proof.
  destruct corner1 as [r1 c1], corner2 as [r2 c2].
  intros Hcorner1 Hcorner2 Hin1 Hin2.
  destruct (corner_in_shape r1 c1 Hcorner1) as [Hr1 Hrow1].
  destruct (corner_in_shape r2 c2 Hcorner2) as [Hr2 Hrow2].
  assert (r1 = r2) as ->; [|f_equal; lia].
  apply elem_of_hooks_at_shapes in Hin1, Hin2. simpl in Hin1, Hin2.
  destruct Hin1 as [(Hlen1 & Hstrip1 & ->)|(Hstrip1 & ->)],
    Hin2 as [(Hlen2 & Hstrip2 & Heq)|(Hstrip2 & Heq)].
  - pose proof (is_diagram_remove_vertical shape shape_partition r1 c1
      Hcorner1 hook_length Hstrip1) as Hmu1.
    pose proof (is_diagram_remove_vertical shape shape_partition r2 c2
      Hcorner2 hook_length Hstrip2) as Hmu2.
    pose proof (positive_rows_row_length _ _ r1 Hmu1 Hmu2 Heq) as Hat1.
    pose proof (positive_rows_row_length _ _ r2 Hmu1 Hmu2 Heq) as Hat2.
    unfold remove_vertical in Hat1, Hat2.
    rewrite !row_length_fmap_range in Hat1, Hat2.
    repeat case_decide; lia.
  - pose proof (is_diagram_remove_vertical shape shape_partition r1 c1
      Hcorner1 hook_length Hstrip1) as Hmu1.
    pose proof (is_diagram_remove_horizontal shape shape_partition r2 c2
      Hcorner2 hook_length ltac:(lia) Hstrip2) as Hmu2.
    pose proof (positive_rows_row_length _ _ r2 Hmu1 Hmu2 Heq) as Hat2.
    unfold remove_vertical, remove_horizontal in Hat2.
    rewrite !row_length_fmap_range in Hat2.
    repeat case_decide; lia.
  - pose proof (is_diagram_remove_horizontal shape shape_partition r1 c1
      Hcorner1 hook_length ltac:(lia) Hstrip1) as Hmu1.
    pose proof (is_diagram_remove_vertical shape shape_partition r2 c2
      Hcorner2 hook_length Hstrip2) as Hmu2.
    pose proof (positive_rows_row_length _ _ r1 Hmu1 Hmu2 Heq) as Hat1.
    unfold remove_vertical, remove_horizontal in Hat1.
    rewrite !row_length_fmap_range in Hat1.
    repeat case_decide; lia.
  - pose proof (is_diagram_remove_horizontal shape shape_partition r1 c1
      Hcorner1 hook_length ltac:(lia) Hstrip1) as Hmu1.
    pose proof (is_diagram_remove_horizontal shape shape_partition r2 c2
      Hcorner2 hook_length ltac:(lia) Hstrip2) as Hmu2.
    pose proof (positive_rows_row_length _ _ r1 Hmu1 Hmu2 Heq) as Hat1.
    unfold remove_horizontal in Hat1.
    rewrite !row_length_fmap_range in Hat1.
    repeat case_decide; lia.
Qed.

(** The strip going up and the strip going left from one corner leave
    different shapes. *)
Lemma NoDup_hooks_at_shapes (corner : cell) :
  corner ∈ corners shape → NoDup (hooks_at shape hook_length corner).*1.
Proof.
  destruct corner as [r0 c0]. intros Hcorner.
  destruct (corner_in_shape r0 c0 Hcorner) as [Hr0 Hrow].
  unfold hooks_at. simpl.
  destruct (decide (2 ≤ hook_length ∧ _)) as [[Hlen Htall]|_];
    destruct (decide (wide _ _ _)) as [Hwide|_]; csimpl;
    try (apply NoDup_singleton || apply NoDup_nil_2).
  apply NoDup_cons. split; [|apply NoDup_singleton].
  intros Heq%list_elem_of_singleton.
  pose proof (is_diagram_remove_vertical shape shape_partition r0 c0
    Hcorner hook_length Htall) as Hmu1.
  pose proof (is_diagram_remove_horizontal shape shape_partition r0 c0
    Hcorner hook_length ltac:(lia) Hwide) as Hmu2.
  pose proof (positive_rows_row_length _ _ r0 Hmu1 Hmu2 Heq) as Hat.
  unfold remove_vertical, remove_horizontal in Hat.
  rewrite !row_length_fmap_range in Hat.
  repeat case_decide; lia.
Qed.
End no_duplicates.

(** ** At most one hook ends in each row *)

Lemma length_bind_ext {A B C : Type} (f : A → list B) (g : A → list C)
    (l : list A) :
  (∀ x, length (f x) = length (g x)) →
  length (l ≫= f) = length (l ≫= g).
Proof.
  intros Hfg. induction l as [|x l IH]; [done|].
  by rewrite !bind_cons, !length_app, Hfg, IH.
Qed.

Lemma length_hook_rows (shape : list Z) (hook_length : Z) (corner : cell) :
  length (hooks_at shape hook_length corner)
  = length (hook_rows shape hook_length corner).
Proof.
  unfold hooks_at, hook_rows. rewrite !length_app.
  by repeat case_decide.
Qed.

Lemma elem_of_hook_rows (shape : list Z) (hook_length : Z) (corner : cell)
    (r : Z) :
  r ∈ hook_rows shape hook_length corner ↔
  (2 ≤ hook_length ∧ tall shape corner hook_length
   ∧ r = corner.1 - hook_length + 1)
  ∨ (wide shape corner hook_length ∧ r = corner.1).
Proof.
  unfold hook_rows. rewrite elem_of_app.
  destruct (decide (2 ≤ hook_length ∧ _)) as [[? ?]|Hno];
    destruct (decide (wide _ _ _)) as [?|Hno'];
    rewrite ?list_elem_of_singleton, ?elem_of_nil; tauto.
Qed.

Section one_hook_per_row.
Variable shape : list Z.
Variable hook_length : Z.
Hypothesis shape_partition : is_partition shape.
Hypothesis hook_length_pos : 0 < hook_length.

Lemma hook_rows_in_shape (corner : cell) (r : Z) :
  corner ∈ corners shape →
  r ∈ hook_rows shape hook_length corner →
  0 ≤ r < Z.of_nat (length shape).
Proof.
  destruct corner as [r0 c0]. intros Hcorner Hr.
  destruct (corner_in_shape shape shape_partition r0 c0 Hcorner)
    as [Hr0 _].
  apply elem_of_hook_rows in Hr as [(_ & [Htop _] & ->)|(_ & ->)];
    simpl in *; lia.
Qed.

(** A row in which a strip ends tells the corner the strip started at. *)
Lemma hook_rows_same_corner (corner1 corner2 : cell) (r : Z) :
  corner1 ∈ corners shape →
  corner2 ∈ corners shape →
  r ∈ hook_rows shape hook_length corner1 →
  r ∈ hook_rows shape hook_length corner2 →
  corner1 = corner2.
Proof.
  destruct corner1 as [r1 c1], corner2 as [r2 c2].
  intros Hcorner1 Hcorner2 Hin1 Hin2.
  destruct (corner_in_shape shape shape_partition r1 c1 Hcorner1)
    as [Hr1 Hrow1].
  destruct (corner_in_shape shape shape_partition r2 c2 Hcorner2)
    as [Hr2 Hrow2].
  pose proof (proj1 (elem_of_corners shape r1 c1) Hcorner1) as Hfacts1.
  pose proof (proj1 (elem_of_corners shape r2 c2) Hcorner2) as Hfacts2.
  assert (r1 = r2) as ->; [|f_equal; lia].
  apply elem_of_hook_rows in Hin1, Hin2. simpl in Hin1, Hin2.
  destruct Hin1 as [(Hlen1 & Htall1 & ->)|(_ & ->)],
    Hin2 as [(Hlen2 & Htall2 & Heq)|(_ & Heq)]; [lia| | |lia].
  - destruct (tall_rows shape shape_partition r1 c1 Hcorner1 hook_length
      r2 Htall1 ltac:(lia)) as [_ Hsame].
    destruct (tall_rows shape shape_partition r1 c1 Hcorner1 hook_length
      (r2 + 1) Htall1 ltac:(lia)) as [_ Hbelow].
    lia.
  - destruct (tall_rows shape shape_partition r2 c2 Hcorner2 hook_length
      r1 Htall2 ltac:(lia)) as [_ Hsame].
    destruct (tall_rows shape shape_partition r2 c2 Hcorner2 hook_length
      (r1 + 1) Htall2 ltac:(lia)) as [_ Hbelow].
    lia.
Qed.

Lemma NoDup_hook_rows (corner : cell) :
  NoDup (hook_rows shape hook_length corner).
Proof.
  unfold hook_rows.
  destruct (decide (2 ≤ hook_length ∧ _)) as [[Hlen _]|_];
    destruct (decide (wide _ _ _)) as [_|_]; csimpl;
    try (apply NoDup_singleton || apply NoDup_nil_2).
  apply NoDup_cons. split; [|apply NoDup_singleton].
  intros Heq%list_elem_of_singleton. lia.
Qed.

(** The strips found on a partition end in different rows of the diagram,
    so there are at most as many as the diagram has rows. *)
Lemma hooks_at_most_rows :
  (length (corners shape ≫= hooks_at shape hook_length) ≤ length shape)%nat.
Proof.
  rewrite (length_bind_ext _ (hook_rows shape hook_length))
    by apply length_hook_rows.
  assert (NoDup (corners shape ≫= hook_rows shape hook_length)) as Hnodup.
  { apply NoDup_bind.
    - intros corner1 corner2 r ??. by apply hook_rows_same_corner.
    - intros corner _. apply NoDup_hook_rows.
    - apply NoDup_corners. }
  assert (corners shape ≫= hook_rows shape hook_length
          ⊆+ seqZ 0 (Z.of_nat (length shape))) as Hsub.
  { apply NoDup_submseteq; [done|].
    intros r (corner & Hr & Hcorner)%list_elem_of_bind.
    apply elem_of_seqZ.
    pose proof (hook_rows_in_shape corner r Hcorner Hr). lia. }
  apply submseteq_length in Hsub. rewrite length_seqZ in Hsub. lia.
Qed.
End one_hook_per_row.

(** ** [main] *)

(** [main] on integer lists either raises [ValueError] at its guard or
    prints a pair; the guard compares the length of the count vector with
    the size of the partition. *)
Lemma main_returns (partition cycle_counts : list Z) :
  Z.of_nat (length cycle_counts) = sum partition →
  ∃ chi_M chi_S,
    character_M partition (parse_cycle_type cycle_counts) = Ok chi_M
    ∧ character_S partition (parse_cycle_type cycle_counts) = Ok chi_S
    ∧ main partition cycle_counts = Ok (chi_M, chi_S).
Proof.
  intros Hlen. unfold main. rewrite bool_decide_eq_false_2 by lia.
  destruct (backtrack_returns partition
    (parse_cycle_type cycle_counts)
    (S (length (parse_cycle_type cycle_counts))) 0 partition)
    as (m & Hm & _); [lia|lia|done|].
  destruct (mn_returns (parse_cycle_type cycle_counts) partition) as [s Hs].
  exists m, s. unfold character_M, character_S. rewrite Hm, Hs. done.
Qed.

(** * The claims *)

(** C1. The three cells [(0,1)], [(1,1)], [(1,0)] of the square [[2,2]]
    form a connected strip of border cells whose removal leaves the
    partition [[1]], yet the search started at the corner [(1,1)] reports
    no hook of length 3. *)
Theorem rim_hooks_misses_bent_hook :
  is_partition [2; 2]
  ∧ removable_rim_hook [2; 2] [(0, 1); (1, 1); (1, 0)]
  ∧ length [(0, 1); (1, 1); (1, 0) : cell] = 3%nat
  ∧ rim_hooks [2; 2] 3 = Ok [].
Proof.
  split; [split; repeat constructor; lia|].
  split; [|split; [done|by vm_compute]].
  split; [|split; [|split]].
  - apply (bool_decide_unpack _). by vm_compute.
  - intros x Hx. repeat (apply elem_of_cons in Hx as [->|Hx]);
      [split; [apply (bool_decide_unpack _)|]; by vm_compute..|].
    by apply elem_of_nil in Hx.
  - intros [|[|[|i]]] x y; simpl; intros [= <-] [= <-]; by vm_compute.
  - exists [1]. split; [split; repeat constructor; lia|].
    apply (bool_decide_unpack _). by vm_compute.
Qed.

(** C2. On the partition [[2,1]] and a single 3-cycle, [character_M] is
    [0] as expected, but [character_S] is [0], not the character value
    [-1]: the search finds no rim hook of length 3 in the diagram. *)
Theorem three_cycle_on_2_1 :
  parse_cycle_type [0; 0; 1] = [3]
  ∧ character_M [2; 1] [3] = Ok 0
  ∧ character_S [2; 1] [3] = Ok 0
  ∧ main [2; 1] [0; 0; 1] = Ok (0, 0).
Proof. repeat split; by vm_compute. Qed.

(** C3 (as stated, refuted). The count vector [[0,0,0]] has the length the
    guard wants for the partition [[2,1]], yet it expands to no cycle at
    all: the totals differ (3 against 0), nothing is raised and a pair is
    printed. *)
Lemma main_accepts_mismatched_totals :
  sum [2; 1] ≠ sum (parse_cycle_type [0; 0; 0])
  ∧ main [2; 1] [0; 0; 0] ≠ Raise ValueError
  ∧ main [2; 1] [0; 0; 0] = Ok (0, 1).
Proof. repeat split; by vm_compute. Qed.

(** C3 (amended). Before any character is computed, [main] checks that the
    count vector has as many entries as the partition has cells; when it
    does not, the call raises [ValueError] and no pair is produced. *)
Theorem main_validates_length (partition cycle_counts : list Z) :
  Z.of_nat (length cycle_counts) ≠ sum partition →
  main partition cycle_counts = Raise ValueError.
Proof. intros Hlen. unfold main. by rewrite bool_decide_eq_true_2. Qed.

Lemma main_validates_length_witness :
  main [2; 1] [1; 0] = Raise ValueError.
Proof. apply main_validates_length. by vm_compute. Defined.

(** C4 (as stated, refuted). The partition [[2,1]] has two removable
    cells, and [rim_hooks] returns a pair for each of them. *)
Lemma rim_hooks_two_hooks_of_length_1 :
  is_partition [2; 1]
  ∧ 0 < 1
  ∧ ∃ hs, rim_hooks [2; 1] 1 = Ok hs ∧ ¬ (length hs ≤ 1)%nat.
Proof.
  split; [split; repeat constructor; lia|]. split; [lia|].
  eexists. split; [by vm_compute|]. simpl. lia.
Qed.

(** C4 (amended). On a partition and for a positive hook length,
    [rim_hooks] can return several pairs, but no two of them have the same
    [new_shape], and there are at most as many as the diagram has rows. *)
Theorem rim_hooks_at_most_one_per_row (shape : list Z) (hook_length : Z) :
  is_partition shape →
  0 < hook_length →
  ∃ hs,
    rim_hooks shape hook_length = Ok hs
    ∧ NoDup hs.*1
    ∧ (length hs ≤ length shape)%nat.
Proof.
  intros Hshape Hlen. eexists.
  split; [by apply rim_hooks_partition|]. split.
  - rewrite fmap_bind_list. apply NoDup_bind.
    + intros corner1 corner2 new_shape ??.
      by apply same_shape_same_corner.
    + intros corner ?. by apply NoDup_hooks_at_shapes.
    + apply NoDup_corners.
  - by apply hooks_at_most_rows.
Qed.

Lemma rim_hooks_at_most_one_per_row_witness :
  ∃ hs,
    rim_hooks [2; 1] 1 = Ok hs
    ∧ NoDup hs.*1
    ∧ (length hs ≤ length [2; 1]%Z)%nat.
Proof.
  apply (rim_hooks_at_most_one_per_row [2; 1] 1); [|lia].
  split; repeat constructor; lia.
Defined.

(** C5. On the partition [[3,1]] the value of [character_S] depends on
    the order of the two cycles. *)
Theorem character_S_depends_on_order :
  [1; 3] ≡ₚ [3; 1]
  ∧ character_S [3; 1] [1; 3] = Ok 1
  ∧ character_S [3; 1] [3; 1] = Ok 0.
Proof. split; [apply Permutation_swap|]. split; by vm_compute. Qed.

(** C6. On the one-row partition [[n]] both characters are [1] for every
    list of (positive) cycle lengths that add up to [n]. *)
Theorem single_row_characters (n : Z) (cycles : list Z) :
  Forall (λ x, 0 < x) cycles →
  sum cycles = n →
  character_M [n] cycles = Ok 1 ∧ character_S [n] cycles = Ok 1.
Proof.
  intros Hpos <-. split.
  - unfold character_M.
    rewrite <-(backtrack_single_row (sum cycles) cycles
                 (S (length cycles)) 0) by (done || lia).
    done.
  - unfold character_S. destruct Hpos as [|c rest Hc Hrest]; [done|].
    rewrite <-(mn_single_row (c :: rest)) by by constructor.
    pose proof (sum_nonneg _ Hrest).
    unfold positive_rows. rewrite filter_cons, decide_True; [done|].
    simpl. lia.
Qed.

Lemma single_row_characters_witness :
  character_M [5] [2; 1; 2] = Ok 1 ∧ character_S [5] [2; 1; 2] = Ok 1.
Proof.
  apply single_row_characters; [repeat constructor; lia|done].
Defined.

(** C7. On the one-column partition with [n] rows, [character_S] is the
    sign [(-1)^(n - k)] of the cycle type, for every list of [k]
    (positive) cycle lengths that add up to [n]. *)
Theorem single_column_character (n : nat) (cycles : list Z) :
  Forall (λ x, 0 < x) cycles →
  sum cycles = Z.of_nat n →
  character_S (replicate n 1) cycles
  = Ok ((-1) ^ (Z.of_nat n - Z.of_nat (length cycles))).
Proof.
  intros Hpos Hsum. unfold character_S.
  rewrite <-Hsum, <-mn_single_column by done.
  by rewrite Hsum, Nat2Z.id.
Qed.

Lemma single_column_character_witness :
  character_S [1; 1; 1; 1; 1] [2; 1; 2] = Ok 1.
Proof.
  apply (single_column_character 5 [2; 1; 2]);
    [repeat constructor; lia|done].
Defined.

(** C8. [character_M] always returns, and returns a non-negative integer:
    the recursion never runs out of cycles or rows to index, and it only
    ever adds up ones. *)
Theorem character_M_nonnegative (partition cycle_lengths : list Z) :
  ∃ v, character_M partition cycle_lengths = Ok v ∧ 0 ≤ v.
Proof.
  unfold character_M. apply backtrack_returns; [lia|lia|done].
Qed.

(** C9. On a partition and for a positive hook length, [rim_hooks]
    returns, and every pair [(new_shape, height)] it returns is what is
    left after the removal of [hook_length] distinct cells: [new_shape] is
    a partition (positive, non-increasing), its entries add up to
    [sum shape] minus the hook length, its diagram is exactly the set of
    cells left, and [height] is the number of rows the removed cells touch,
    minus one. *)
Theorem rim_hooks_residual_is_partition (shape : list Z) (hook_length : Z) :
  is_partition shape →
  0 < hook_length →
  ∃ hs,
    rim_hooks shape hook_length = Ok hs
    ∧ ∀ new_shape height,
        (new_shape, height) ∈ hs →
        is_partition new_shape
        ∧ sum new_shape = sum shape - hook_length
        ∧ ∃ path : list cell,
            NoDup path
            ∧ Z.of_nat (length path) = hook_length
            ∧ (∀ x, x ∈ path → x ∈ cells shape)
            ∧ cells shape ∖ list_to_set path = cells new_shape
            ∧ height = rows_spanned path - 1.
Proof.
  intros Hshape Hlen.
  pose proof (rim_hooks_partition shape hook_length Hshape Hlen) as Hhs.
  eexists. split; [done|]. intros new_shape height Hin.
  pose proof (is_partition_diagram shape Hshape) as [Hnonneg _].
  destruct (rim_hooks_strips _ _ _ _ _ Hshape Hlen Hhs Hin)
    as (r0 & c0 & Hcorner & [(Htall & -> & ->)|(Hwide & -> & ->)]).
  - pose proof (is_diagram_remove_vertical shape Hshape r0 c0 Hcorner
      hook_length Htall) as Hmu.
    pose proof (cells_remove_vertical shape Hshape r0 c0 Hcorner
      hook_length Htall) as Hcells.
    pose proof (NoDup_vertical_strip r0 c0 hook_length) as Hnodup.
    assert (∀ x, x ∈ vertical_strip r0 c0 hook_length → x ∈ cells shape)
      as Hsub by (intros x; by apply vertical_strip_cells).
    split; [apply is_partition_positive_rows, Hmu|].
    split.
    + rewrite <-(residual_shape_cells shape
        (vertical_strip r0 c0 hook_length)) by
        (done || apply Hmu || by apply length_remove_vertical).
      rewrite residual_shape_sum, length_vertical_strip by done. lia.
    + exists (vertical_strip r0 c0 hook_length).
      rewrite length_vertical_strip, cells_positive_rows,
        rows_spanned_vertical_strip by (done || lia).
      repeat split; (done || lia).
  - pose proof (is_diagram_remove_horizontal shape Hshape r0 c0 Hcorner
      hook_length ltac:(lia) Hwide) as Hmu.
    pose proof (cells_remove_horizontal shape Hshape r0 c0 Hcorner
      hook_length ltac:(lia) Hwide) as Hcells.
    pose proof (NoDup_horizontal_strip r0 c0 hook_length) as Hnodup.
    assert (∀ x, x ∈ horizontal_strip r0 c0 hook_length → x ∈ cells shape)
      as Hsub by (intros x; by apply horizontal_strip_cells).
    split; [apply is_partition_positive_rows, Hmu|].
    split.
    + rewrite <-(residual_shape_cells shape
        (horizontal_strip r0 c0 hook_length)) by
        (done || apply Hmu || by apply length_remove_horizontal).
      rewrite residual_shape_sum, length_horizontal_strip by done. lia.
    + exists (horizontal_strip r0 c0 hook_length).
      rewrite length_horizontal_strip, cells_positive_rows,
        rows_spanned_horizontal_strip by (done || lia).
      repeat split; (done || lia).
Qed.

Lemma rim_hooks_residual_is_partition_witness :
  ∃ hs,
    rim_hooks [3; 3] 2 = Ok hs
    ∧ ∀ new_shape height,
        (new_shape, height) ∈ hs →
        is_partition new_shape
        ∧ sum new_shape = sum [3; 3] - 2
        ∧ ∃ path : list cell,
            NoDup path
            ∧ Z.of_nat (length path) = 2
            ∧ (∀ x, x ∈ path → x ∈ cells [3; 3])
            ∧ cells [3; 3] ∖ list_to_set path = cells new_shape
            ∧ height = rows_spanned path - 1.
Proof.
  apply (rim_hooks_residual_is_partition [3; 3] 2).
  - split; repeat constructor; lia.
  - lia.
Defined.

(** C10. With no cycles left, [character_S] answers [1] whatever the shape
    is, and [character_M] answers [0] on a non-empty partition: neither
    notices that the cells of the partition were never used up. *)
Theorem empty_cycles_not_rejected (shape partition : list Z) :
  partition ≠ [] →
  Forall (λ x, 0 < x) partition →
  character_S shape [] = Ok 1 ∧ character_M partition [] = Ok 0.
Proof.
  intros Hne Hpos. split; [done|].
  unfold character_M. simpl.
  rewrite bool_decide_eq_false_2; [done|].
  destruct partition as [|x partition]; [done|].
  intros Hz. apply Forall_cons in Hz as [Hx _], Hpos as [Hx' _]. lia.
Qed.

Lemma empty_cycles_not_rejected_witness :
  character_S [3; 2] [] = Ok 1 ∧ character_M [2; 1] [] = Ok 0.
Proof.
  apply (empty_cycles_not_rejected [3; 2] [2; 1]); [done|].
  repeat constructor.
Defined.

(** * Further properties of the program *)

(** ** [parse_cycle_type] *)

Lemma enumerate_cons {A : Type} (start : Z) (x : A) (l : list A) :
  enumerate start (x :: l) = (start, x) :: enumerate (start + 1) l.
Proof.
  unfold enumerate. rewrite imap_cons. f_equal; [f_equal; lia|].
  apply imap_ext. intros i y _. simpl. f_equal. lia.
Qed.

Lemma expand_cons (start c : Z) (counts : list Z) :
  enumerate start (c :: counts) ≫= (λ lc, replicate (Z.to_nat lc.2) lc.1)
  = replicate (Z.to_nat c) start
    ++ (enumerate (start + 1) counts
          ≫= λ lc, replicate (Z.to_nat lc.2) lc.1).
Proof. by rewrite enumerate_cons, bind_cons. Qed.

Lemma elem_of_expand (start : Z) (counts : list Z) (x : Z) :
  x ∈ enumerate start counts ≫= (λ lc, replicate (Z.to_nat lc.2) lc.1) ↔
  ∃ (i : nat) (c : Z),
    counts !! i = Some c ∧ x = start + Z.of_nat i ∧ 0 < c.
Proof.
  rewrite list_elem_of_bind. split.
  - intros ([r c] & Hx & (i & -> & Hc)%enumerate_lookup). simpl in Hx.
    apply elem_of_replicate in Hx as [-> Hn]. exists i, c.
    split; [done|]. lia.
  - intros (i & c & Hc & -> & Hpos). exists (start + Z.of_nat i, c). split.
    + simpl. apply elem_of_replicate. lia.
    + apply enumerate_lookup. eauto.
Qed.

Lemma sum_replicate (n : nat) (x : Z) : sum (replicate n x) = Z.of_nat n * x.
Proof. induction n as [|n IH]; simpl in *; lia. Qed.

Lemma length_filter_replicate (P : Z → Prop) `{∀ x, Decision (P x)}
    (n : nat) (x : Z) :
  length (filter P (replicate n x)) = if decide (P x) then n else 0%nat.
Proof.
  induction n as [|n IH]; simpl; [by case_decide|].
  rewrite filter_cons. destruct (decide (P x)); simpl; by rewrite IH.
Qed.

Lemma filter_none {A : Type} (P : A → Prop) `{∀ x, Decision (P x)}
    (l : list A) :
  (∀ x, x ∈ l → ¬ P x) → filter P l = [].
Proof.
  induction l as [|x l IH]; intros Hl; [done|].
  rewrite filter_cons, decide_False by (apply Hl; left).
  apply IH. intros y Hy. apply Hl. by right.
Qed.

Lemma expand_multiplicity (start : Z) (counts : list Z) (i : nat) :
  length (filter (λ x, x = start + Z.of_nat i)
            (enumerate start counts
               ≫= λ lc, replicate (Z.to_nat lc.2) lc.1))
  = Z.to_nat (default 0 (counts !! i)).
Proof.
  revert start i. induction counts as [|c counts IH]; intros start i.
  - done.
  - rewrite expand_cons, filter_app, length_app, length_filter_replicate.
    destruct i as [|i]; simpl.
    + rewrite decide_True by lia. rewrite filter_none; [simpl; lia|].
      intros x (j & c' & _ & -> & _)%elem_of_expand. lia.
    + rewrite decide_False by lia.
      replace (start + Z.of_nat (S i)) with (start + 1 + Z.of_nat i) by lia.
      by rewrite IH.
Qed.

Lemma expand_sum (start : Z) (counts : list Z) :
  sum (enumerate start counts ≫= λ lc, replicate (Z.to_nat lc.2) lc.1)
  = sum (imap (λ i c, (start + Z.of_nat i) * Z.max 0 c) counts).
Proof.
  revert start. induction counts as [|c counts IH]; intros start; [done|].
  rewrite expand_cons, sum_app, sum_replicate, IH, imap_cons.
  change (sum (?x :: ?l)) with (x + sum l).
  rewrite (imap_ext ((λ i c, (start + Z.of_nat i) * Z.max 0 c) ∘ S)
             (λ i c, (start + 1 + Z.of_nat i) * Z.max 0 c));
    [simpl; lia|].
  intros i y _. simpl. f_equal. lia.
Qed.

Lemma StronglySorted_replicate (n : nat) (x : Z) :
  StronglySorted Z.le (replicate n x).
Proof.
  induction n as [|n IH]; simpl; constructor; [done|].
  apply Forall_replicate. lia.
Qed.

Lemma expand_sorted (start : Z) (counts : list Z) :
  StronglySorted Z.le
    (enumerate start counts ≫= λ lc, replicate (Z.to_nat lc.2) lc.1).
Proof.
  revert start. induction counts as [|c counts IH]; intros start.
  - constructor.
  - rewrite expand_cons. apply StronglySorted_app. split; [|split].
    + intros x y ->%elem_of_replicate_inv
        (j & c' & _ & -> & _)%elem_of_expand. lia.
    + apply StronglySorted_replicate.
    + apply IH.
Qed.

(** Every cycle length produced from a count vector of [n] entries lies
    between [1] and [n]. *)
Theorem parse_cycle_type_bounds (cycle_counts : list Z) :
  Forall (λ len, 1 ≤ len ≤ Z.of_nat (length cycle_counts))
    (parse_cycle_type cycle_counts).
Proof.
  apply Forall_forall. intros x (i & c & Hc & -> & _)%elem_of_expand.
  apply lookup_lt_Some in Hc. lia.
Qed.

(** The cycle lengths come out in ascending order. *)
Theorem parse_cycle_type_ascending (cycle_counts : list Z) :
  Sorted Z.le (parse_cycle_type cycle_counts).
Proof. apply StronglySorted_Sorted, expand_sorted. Qed.

(** The length [i + 1] occurs exactly [cycle_counts[i]] times in the
    result; a negative count counts as zero, and so does an index past the
    end of the vector. *)
Theorem parse_cycle_type_multiplicity (cycle_counts : list Z) (i : nat) :
  length (filter (λ len, len = Z.of_nat i + 1)
            (parse_cycle_type cycle_counts))
  = Z.to_nat (default 0 (cycle_counts !! i)).
Proof.
  unfold parse_cycle_type.
  replace (Z.of_nat i + 1) with (1 + Z.of_nat i) by lia.
  apply expand_multiplicity.
Qed.

(** The cycle lengths add up to the sum of [(i + 1) * cycle_counts[i]] over
    the entries of the vector, negative counts counting as zero. *)
Theorem parse_cycle_type_sum (cycle_counts : list Z) :
  sum (parse_cycle_type cycle_counts)
  = sum (imap (λ i c, (Z.of_nat i + 1) * Z.max 0 c) cycle_counts).
Proof.
  unfold parse_cycle_type. rewrite expand_sum. f_equal.
  apply imap_ext. intros i c _. simpl. lia.
Qed.

(** ** [character_M] *)

Lemma character_M_placements (partition cycle_lengths : list Z) :
  character_M partition cycle_lengths
  = Ok (placements (rows partition) cycle_lengths partition).
Proof.
  unfold character_M. by rewrite backtrack_placements by (done || lia).
Qed.

Lemma sum_insert (l : list Z) (i : nat) (x y : Z) :
  l !! i = Some x → sum (<[i := y]> l) = sum l - x + y.
Proof.
  revert i. induction l as [|z l IH]; intros [|i] Hx; simplify_eq/=.
  - lia.
  - rewrite (IH i) by done. lia.
Qed.

Lemma sum_fmap_all_zero {A : Type} (f : A → Z) (l : list A) :
  (∀ x, x ∈ l → f x = 0) → sum (f <$> l) = 0.
Proof.
  intros Hf. rewrite (sum_fmap_ext f (λ _, 0)) by done.
  apply sum_fmap_zero.
Qed.

Lemma sum_fmap_bound {A : Type} (f : A → Z) (b : Z) (l : list A) :
  (∀ x, x ∈ l → 0 ≤ f x ≤ b) →
  0 ≤ sum (f <$> l) ≤ Z.of_nat (length l) * b.
Proof.
  induction l as [|x l IH]; intros Hf; csimpl; [lia|].
  pose proof (Hf x ltac:(left)).
  pose proof (IH (λ y Hy, Hf y ltac:(by right))). lia.
Qed.

Lemma placements_sum_mismatch (rows : nat) (cycles remaining : list Z) :
  sum cycles ≠ sum remaining → placements rows cycles remaining = 0.
Proof.
  revert remaining. induction cycles as [|len cycles IH];
    intros remaining Hsum; simpl.
  - rewrite bool_decide_eq_false_2; [done|]. intros Hzero. apply Hsum.
    clear Hsum. induction Hzero as [|r remaining -> _ IH]; simpl in *; lia.
  - apply sum_fmap_all_zero. intros i _.
    destruct (remaining !! i) as [ri|] eqn:Hri; [|done].
    case_bool_decide; [|done]. apply IH.
    rewrite (sum_insert _ _ _ _ Hri). simpl in Hsum. lia.
Qed.

Lemma placements_long_cycle (rows : nat) (cycles remaining : list Z) (c : Z) :
  Forall (λ x, 0 ≤ x) cycles →
  c ∈ cycles →
  Forall (λ r, r < c) remaining →
  placements rows cycles remaining = 0.
Proof.
  intros Hpos. revert remaining.
  induction Hpos as [|len cycles Hlen _ IH]; intros remaining Hc Hshort.
  - by apply elem_of_nil in Hc.
  - simpl. apply sum_fmap_all_zero. intros i _.
    destruct (remaining !! i) as [ri|] eqn:Hri; [|done].
    pose proof (Forall_lookup_1 _ _ _ _ Hshort Hri) as Hlt. simpl in Hlt.
    case_bool_decide as Hfits; [|done].
    apply elem_of_cons in Hc as [->|Hc]; [lia|].
    apply IH; [done|]. apply Forall_insert; [done|lia].
Qed.

Lemma placements_bound (rows : nat) (cycles remaining : list Z) :
  0 ≤ placements rows cycles remaining
    ≤ Z.of_nat rows ^ Z.of_nat (length cycles).
Proof.
  revert remaining. induction cycles as [|len cycles IH]; intros remaining.
  - simpl. case_bool_decide; lia.
  - change (placements rows (len :: cycles) remaining) with
      (sum ((λ i,
         match remaining !! i with
         | Some ri =>
           if bool_decide (len ≤ ri)
           then placements rows cycles (<[i := ri - len]> remaining)
           else 0
         | None => 0
         end) <$> seq 0 rows)).
    replace (Z.of_nat (length (len :: cycles)))
      with (Z.succ (Z.of_nat (length cycles))) by (simpl; lia).
    rewrite Z.pow_succ_r by lia.
    match goal with
    | |- 0 ≤ sum (?f <$> _) ≤ _ =>
      pose proof (sum_fmap_bound f
        (Z.of_nat rows ^ Z.of_nat (length cycles)) (seq 0 rows)) as Hbound
    end.
    rewrite length_seq in Hbound. apply Hbound.
    intros i _. destruct (remaining !! i) as [ri|]; [|lia].
    case_bool_decide; [apply IH|lia].
Qed.

(** Reordering the cycles does not change [character_M], as long as no
    cycle length is negative. *)
Theorem character_M_order_independent (partition cycles cycles' : list Z) :
  Forall (λ x, 0 ≤ x) cycles →
  cycles ≡ₚ cycles' →
  character_M partition cycles = character_M partition cycles'.
Proof. apply character_M_Permutation. Qed.

Lemma character_M_order_independent_witness :
  character_M [3; 2] [1; 2; 2] = character_M [3; 2] [2; 1; 2].
Proof.
  apply character_M_order_independent.
  - repeat constructor; lia.
  - apply Permutation_swap.
Defined.

(** When the cycle lengths do not add up to the size of the partition,
    [character_M] returns [0]; it raises nothing. *)
Theorem character_M_zero_on_mismatch (partition cycle_lengths : list Z) :
  sum cycle_lengths ≠ sum partition →
  character_M partition cycle_lengths = Ok 0.
Proof.
  intros Hsum. rewrite character_M_placements.
  by rewrite placements_sum_mismatch.
Qed.

Lemma character_M_zero_on_mismatch_witness :
  character_M [2; 1] [1; 1] = Ok 0.
Proof. apply character_M_zero_on_mismatch. by vm_compute. Defined.

(** A cycle that is longer than every row of the partition makes
    [character_M] return [0] (cycle lengths not negative). *)
Theorem character_M_zero_on_long_cycle (partition cycle_lengths : list Z)
    (c : Z) :
  Forall (λ x, 0 ≤ x) cycle_lengths →
  c ∈ cycle_lengths →
  Forall (λ r, r < c) partition →
  character_M partition cycle_lengths = Ok 0.
Proof.
  intros Hpos Hc Hshort. rewrite character_M_placements.
  by rewrite (placements_long_cycle _ _ _ c).
Qed.

Lemma character_M_zero_on_long_cycle_witness :
  character_M [2; 2] [1; 3] = Ok 0.
Proof.
  apply (character_M_zero_on_long_cycle [2; 2] [1; 3] 3).
  - repeat constructor; lia.
  - right. left.
  - repeat constructor; lia.
Defined.

(** [character_M] never exceeds the number of ways to send each cycle to a
    row: the number of rows to the power of the number of cycles. *)
Theorem character_M_bound (partition cycle_lengths : list Z) :
  ∃ v,
    character_M partition cycle_lengths = Ok v
    ∧ 0 ≤ v ≤ Z.of_nat (length partition) ^ Z.of_nat (length cycle_lengths).
Proof.
  eexists. split; [apply character_M_placements|apply placements_bound].
Qed.

(** ** [rim_hooks] on any shape *)

Lemma for_each_preserves {A S : Type} (P : S → Prop) (xs : list A)
    (body : S → A → result S) (acc r : S) :
  P acc →
  (∀ acc x acc', x ∈ xs → P acc → body acc x = Ok acc' → P acc') →
  for_each xs body acc = Ok r → P r.
Proof.
  revert acc. induction xs as [|x xs IH]; intros acc Hacc Hbody; simpl.
  - by intros [= <-].
  - intros (acc' & Hx & Hrest)%bind_Ok.
    apply (IH acc'); [|intros a y a' Hy; apply Hbody; by right|done].
    eapply Hbody; [left|done..].
Qed.

(** Whatever holds of the list of hooks and survives every recording of a
    path of [hook_length] cells holds of the list the search returns. *)
Lemma dfs_preserves (shape : list Z) (hook_length : Z)
    (Q : list hook → Prop) :
  (∀ path hooks,
     path ≠ [] → Z.of_nat (length path) = hook_length → Q hooks →
     Q (record_hook shape hook_length path hooks)) →
  ∀ fuel path visited hooks hs,
    path ≠ [] → Q hooks →
    dfs shape hook_length fuel path visited hooks = Ok hs → Q hs.
Proof.
  intros Hrecord. induction fuel as [|fuel IH];
    intros path visited hooks hs Hpath Hhooks Hdfs; [done|].
  destruct (decide (Z.of_nat (length path) = hook_length)) as [Hlen|Hlen].
  - rewrite dfs_done in Hdfs by done. injection Hdfs as <-.
    by apply Hrecord.
  - apply last_is_Some in Hpath as [lst Hlst].
    rewrite (dfs_unfold _ _ _ _ _ _ lst) in Hdfs by done.
    apply bind_Ok in Hdfs as (hooks' & Hup & Hleft).
    assert (∀ d acc acc', Q acc →
      try_extend shape (dfs shape hook_length fuel) path visited lst acc d
      = Ok acc' → Q acc') as Hstep.
    { intros d acc acc' Hacc. unfold try_extend.
      destruct (_ && _).
      - apply IH; [by destruct path|done].
      - by intros [= <-]. }
    eapply Hstep; [|done]. by eapply Hstep.
Qed.

Lemma rim_hooks_preserves (shape : list Z) (hook_length : Z)
    (Q : list hook → Prop) (hs : list hook) :
  (∀ path hooks,
     path ≠ [] → Z.of_nat (length path) = hook_length → Q hooks →
     Q (record_hook shape hook_length path hooks)) →
  Q [] →
  rim_hooks shape hook_length = Ok hs → Q hs.
Proof.
  intros Hrecord Hnil. unfold rim_hooks.
  apply for_each_preserves; [done|].
  intros hooks corner hooks' _ Hhooks.
  by apply (dfs_preserves shape hook_length Q Hrecord).
Qed.

Lemma rows_spanned_pos (path : list cell) : path ≠ [] → 1 ≤ rows_spanned path.
Proof.
  intros Hpath. destruct path as [|x path]; [done|]. unfold rows_spanned.
  destruct (size _) as [|n] eqn:Hsize; [|lia].
  apply size_empty_inv in Hsize. specialize (Hsize x.1).
  rewrite elem_of_list_to_set in Hsize. csimpl in Hsize.
  exfalso. apply (not_elem_of_empty (C:=gset Z) x.1), Hsize. left.
Qed.

Lemma record_hook_well_formed (shape : list Z) (hook_length : Z)
    (path : list cell) (hooks : list hook) :
  path ≠ [] →
  Forall (λ h : hook,
    is_partition h.1 ∧ sum h.1 = sum shape - hook_length ∧ 0 ≤ h.2) hooks →
  Forall (λ h : hook,
    is_partition h.1 ∧ sum h.1 = sum shape - hook_length ∧ 0 ≤ h.2)
    (record_hook shape hook_length path hooks).
Proof.
  intros Hpath Hhooks. unfold record_hook.
  case_bool_decide as Hsum; [|done].
  apply Forall_app. split; [done|]. constructor; [|constructor]. simpl.
  split; [split|split].
  - unfold sorted_reverse. rewrite merge_sort_Permutation.
    apply Forall_forall. by intros x [Hx _]%list_elem_of_filter.
  - apply Sorted_merge_sort, _.
  - rewrite <-Hsum. apply sum_Permutation, merge_sort_Permutation.
  - pose proof (rows_spanned_pos path Hpath) as Hrows.
    unfold rows_spanned in Hrows. lia.
Qed.

Lemma rim_hooks_well_formed (shape : list Z) (hook_length : Z)
    (hs : list hook) :
  rim_hooks shape hook_length = Ok hs →
  Forall (λ h : hook,
    is_partition h.1 ∧ sum h.1 = sum shape - hook_length ∧ 0 ≤ h.2) hs.
Proof.
  apply (rim_hooks_preserves shape hook_length _ hs); [|done].
  intros path hooks Hpath _. by apply record_hook_well_formed.
Qed.

(** For every shape and every hook length, valid or not, the search
    terminates, and every pair [(new_shape, height)] it returns has a
    [new_shape] that is sorted in non-increasing order with positive
    entries adding up to [sum shape - hook_length], and a [height] that is
    not negative (so that [(-1) ** height] is [1] or [-1]). *)
Theorem rim_hooks_pairs_well_formed (shape : list Z) (hook_length : Z) :
  ∃ hs,
    rim_hooks shape hook_length = Ok hs
    ∧ Forall (λ h : hook,
        is_partition h.1 ∧ sum h.1 = sum shape - hook_length ∧ 0 ≤ h.2) hs.
Proof.
  destruct (rim_hooks_returns shape hook_length) as [hs Hhs].
  exists hs. split; [done|]. by apply rim_hooks_well_formed.
Qed.

(** A hook length that is zero or negative finds nothing, on any shape. *)
Theorem rim_hooks_nonpositive_length (shape : list Z) (hook_length : Z) :
  hook_length ≤ 0 → rim_hooks shape hook_length = Ok [].
Proof.
  intros Hlen. destruct (rim_hooks_returns shape hook_length) as [hs Hhs].
  rewrite Hhs. f_equal.
  apply (rim_hooks_preserves shape hook_length (λ hooks, hooks = []) hs);
    [|done|done].
  intros path hooks Hpath Hlength. destruct path; [done|simpl in *; lia].
Qed.

Lemma rim_hooks_nonpositive_length_witness : rim_hooks [3; 1] 0 = Ok [].
Proof. apply rim_hooks_nonpositive_length. lia. Defined.

(** ** [rim_hooks] on a partition *)

(** On a partition no two of the returned pairs have the same
    [new_shape]: the list holds no duplicate. *)
Theorem rim_hooks_no_duplicates (shape : list Z) (hook_length : Z) :
  is_partition shape →
  0 < hook_length →
  ∃ hs, rim_hooks shape hook_length = Ok hs ∧ NoDup hs.*1.
Proof.
  intros Hshape Hlen. eexists.
  split; [by apply rim_hooks_partition|].
  rewrite fmap_bind_list. apply NoDup_bind.
  - intros corner1 corner2 new_shape ??.
    by apply same_shape_same_corner.
  - intros corner ?. by apply NoDup_hooks_at_shapes.
  - apply NoDup_corners.
Qed.

Lemma rim_hooks_no_duplicates_witness :
  ∃ hs, rim_hooks [3; 3; 1] 2 = Ok hs ∧ NoDup hs.*1.
Proof.
  apply (rim_hooks_no_duplicates [3; 3; 1] 2); [|lia].
  split; repeat constructor; lia.
Defined.

(** On a partition every returned pair comes from a straight strip that
    starts at an outer corner [(r0, c0)] of the diagram: the cells removed
    are either the [hook_length] cells [(r0, c0)], [(r0 - 1, c0)], ...
    straight up, with height [hook_length - 1], or the [hook_length] cells
    [(r0, c0)], [(r0, c0 - 1)], ... straight to the left, with height [0];
    [new_shape] is the partition whose diagram is what is left. *)
Theorem rim_hooks_only_straight_strips (shape : list Z) (hook_length : Z) :
  is_partition shape →
  0 < hook_length →
  ∃ hs,
    rim_hooks shape hook_length = Ok hs
    ∧ ∀ new_shape height,
        (new_shape, height) ∈ hs →
        ∃ (r0 c0 : Z) (path : list cell),
          (r0, c0) ∈ corners shape
          ∧ ((path = vertical_strip r0 c0 hook_length
              ∧ height = hook_length - 1)
             ∨ (path = horizontal_strip r0 c0 hook_length ∧ height = 0))
          ∧ (∀ x, x ∈ path → x ∈ cells shape)
          ∧ is_partition new_shape
          ∧ cells shape ∖ list_to_set path = cells new_shape.
Proof.
  intros Hshape Hlen.
  pose proof (rim_hooks_partition shape hook_length Hshape Hlen) as Hhs.
  eexists. split; [done|]. intros new_shape height Hin.
  destruct (rim_hooks_strips _ _ _ _ _ Hshape Hlen Hhs Hin)
    as (r0 & c0 & Hcorner & [(Htall & -> & ->)|(Hwide & -> & ->)]).
  - pose proof (is_diagram_remove_vertical shape Hshape r0 c0 Hcorner
      hook_length Htall) as Hmu.
    exists r0, c0, (vertical_strip r0 c0 hook_length).
    split; [done|]. split; [by left|]. split; [|split].
    + intros x. by apply vertical_strip_cells.
    + apply is_partition_positive_rows, Hmu.
    + rewrite cells_positive_rows by done.
      by apply (cells_remove_vertical shape Hshape r0 c0 Hcorner).
  - pose proof (is_diagram_remove_horizontal shape Hshape r0 c0 Hcorner
      hook_length ltac:(lia) Hwide) as Hmu.
    exists r0, c0, (horizontal_strip r0 c0 hook_length).
    split; [done|]. split; [by right|]. split; [|split].
    + intros x. by apply horizontal_strip_cells.
    + apply is_partition_positive_rows, Hmu.
    + rewrite cells_positive_rows by done.
      apply (cells_remove_horizontal shape Hshape r0 c0 Hcorner);
        [lia|done].
Qed.

Lemma rim_hooks_only_straight_strips_witness :
  ∃ hs,
    rim_hooks [3; 3; 1] 2 = Ok hs
    ∧ ∀ new_shape height,
        (new_shape, height) ∈ hs →
        ∃ (r0 c0 : Z) (path : list cell),
          (r0, c0) ∈ corners [3; 3; 1]
          ∧ ((path = vertical_strip r0 c0 2 ∧ height = 2 - 1)
             ∨ (path = horizontal_strip r0 c0 2 ∧ height = 0))
          ∧ (∀ x, x ∈ path → x ∈ cells [3; 3; 1])
          ∧ is_partition new_shape
          ∧ cells [3; 3; 1] ∖ list_to_set path = cells new_shape.
Proof.
  apply (rim_hooks_only_straight_strips [3; 3; 1] 2); [|lia].
  split; repeat constructor; lia.
Defined.

(** On a partition a hook length that exceeds both the number of rows and
    the length of every row finds nothing. *)
Theorem rim_hooks_too_long (shape : list Z) (hook_length : Z) :
  is_partition shape →
  Z.of_nat (length shape) < hook_length →
  Forall (λ row, row < hook_length) shape →
  rim_hooks shape hook_length = Ok [].
Proof.
  intros Hshape Hrows Hcols.
  rewrite rim_hooks_partition by (done || lia). f_equal.
  apply bind_all_nil. intros [r0 c0] Hcorner.
  destruct (corner_in_shape shape Hshape r0 c0 Hcorner) as [Hr0 Hrow].
  destruct (lookup_lt_is_Some_2 shape (Z.to_nat r0)) as [row Hlookup];
    [lia|].
  pose proof (row_length_lookup _ _ _ Hlookup) as Hrow'.
  rewrite Z2Nat.id in Hrow' by lia.
  pose proof (Forall_lookup_1 _ _ _ _ Hcols Hlookup) as Hshort.
  simpl in Hshort.
  unfold hooks_at, tall, wide. simpl.
  rewrite !decide_False by lia. done.
Qed.

Lemma rim_hooks_too_long_witness : rim_hooks [2; 2] 3 = Ok [].
Proof.
  apply rim_hooks_too_long.
  - split; repeat constructor; lia.
  - simpl. lia.
  - repeat constructor; lia.
Defined.

(** ** [character_S] and [main] *)

(** [character_S] returns an integer on all inputs: the search for hooks
    always terminates and nothing is ever raised. *)
Theorem character_S_returns (partition cycle_lengths : list Z) :
  ∃ v, character_S partition cycle_lengths = Ok v.
Proof. apply mn_returns. Qed.

Lemma mn_zero_on_excess (cycles : list Z) (shape : list Z) :
  Forall (λ c, 0 < c) cycles →
  0 ≤ sum shape →
  sum shape < sum cycles →
  mn shape cycles = Ok 0.
Proof.
  intros Hpos. revert shape.
  induction Hpos as [|c rest Hc Hrest IH]; intros shape Hshape Hsum.
  - simpl in Hsum. lia.
  - rewrite mn_cons.
    destruct (rim_hooks_returns shape c) as [hooks Hhooks].
    rewrite Hhooks. simpl.
    pose proof (rim_hooks_well_formed _ _ _ Hhooks) as Hwf.
    rewrite (for_each_sum _ _ (λ _, 0)).
    + by rewrite sum_fmap_zero.
    + intros total h Hh.
      destruct (proj1 (Forall_forall _ _) Hwf h Hh)
        as ([Hpositive _] & Hleft & _).
      rewrite IH; [simpl; f_equal; lia|by apply sum_nonneg|].
      change (sum (c :: rest)) with (c + sum rest) in Hsum. lia.
Qed.

(** When the (positive) cycle lengths add up to more than the shape has
    cells, [character_S] returns [0]. *)
Theorem character_S_zero_on_excess (partition cycle_lengths : list Z) :
  Forall (λ c, 0 < c) cycle_lengths →
  0 ≤ sum partition →
  sum partition < sum cycle_lengths →
  character_S partition cycle_lengths = Ok 0.
Proof. apply mn_zero_on_excess. Qed.

Lemma character_S_zero_on_excess_witness :
  character_S [2; 1] [1; 1; 1; 1] = Ok 0.
Proof.
  apply character_S_zero_on_excess;
    [repeat constructor; lia|by vm_compute..].
Defined.

(** [main] raises [ValueError] exactly when the count vector and the
    partition disagree on [n]; in every other case it prints the two
    characters of the expanded cycle type, and raises nothing. *)
Theorem main_outcomes (partition cycle_counts : list Z) :
  (Z.of_nat (length cycle_counts) ≠ sum partition
   ∧ main partition cycle_counts = Raise ValueError)
  ∨ (Z.of_nat (length cycle_counts) = sum partition
     ∧ ∃ chi_M chi_S,
         character_M partition (parse_cycle_type cycle_counts) = Ok chi_M
         ∧ character_S partition (parse_cycle_type cycle_counts) = Ok chi_S
         ∧ main partition cycle_counts = Ok (chi_M, chi_S)).
Proof.
  destruct (decide (Z.of_nat (length cycle_counts) = sum partition))
    as [Hlen|Hlen].
  - right. split; [done|]. by apply main_returns.
  - left. split; [done|]. unfold main. by rewrite bool_decide_eq_true_2.
Qed.

(** When the guard of [main] passes but the counts do not describe a
    permutation of [n] points (the expanded cycle lengths do not add up to
    the size of the partition), the first number printed is [0]. *)
Theorem main_zero_on_inconsistent_counts (partition cycle_counts : list Z) :
  Z.of_nat (length cycle_counts) = sum partition →
  sum (parse_cycle_type cycle_counts) ≠ sum partition →
  ∃ chi_S, main partition cycle_counts = Ok (0, chi_S).
Proof.
  intros Hlen Hsum.
  destruct (main_returns partition cycle_counts Hlen)
    as (chi_M & chi_S & HM & _ & Hmain).
  rewrite character_M_placements, placements_sum_mismatch in HM by done.
  injection HM as <-. eauto.
Qed.

Lemma main_zero_on_inconsistent_counts_witness :
  ∃ chi_S, main [2; 1] [1; 0; 1] = Ok (0, chi_S).
Proof.
  apply main_zero_on_inconsistent_counts; by vm_compute.
Defined.

(** ** The diagram and the check on the number of cells *)

(** The set of cells built from a shape without negative rows has as many
    elements as the rows add up to. *)
Theorem cells_count (shape : list Z) :
  Forall (λ x, 0 ≤ x) shape → Z.of_nat (size (cells shape)) = sum shape.
Proof. apply size_cells. Qed.

Lemma cells_count_witness : Z.of_nat (size (cells [3; 0; 2])) = sum [3; 0; 2].
Proof. apply cells_count. repeat constructor; lia. Defined.

(** The check on the number of cells that guards the recording of a hook
    cannot fail: when the path consists of distinct cells of the diagram
    (rows not negative) and has the requested length, exactly one pair is
    appended. *)
Theorem record_hook_accepts (shape : list Z) (path : list cell)
    (hooks : list hook) :
  Forall (λ x, 0 ≤ x) shape →
  NoDup path →
  (∀ x, x ∈ path → x ∈ cells shape) →
  record_hook shape (Z.of_nat (length path)) path hooks
  = hooks ++ [(sorted_reverse (residual_shape shape path),
               rows_spanned path - 1)].
Proof.
  intros Hshape Hnodup Hpath. unfold record_hook.
  by rewrite bool_decide_eq_true_2 by by apply residual_shape_sum.
Qed.

Lemma record_hook_accepts_witness :
  record_hook [2; 2] (Z.of_nat (length [(0, 1); (1, 1); (1, 0)]))
    [(0, 1); (1, 1); (1, 0)] []
  = [] ++ [(sorted_reverse (residual_shape [2; 2] [(0, 1); (1, 1); (1, 0)]),
            rows_spanned [(0, 1); (1, 1); (1, 0)] - 1)].
Proof.
  apply record_hook_accepts.
  - repeat constructor; lia.
  - apply (bool_decide_unpack _). by vm_compute.
  - intros x Hx. repeat (apply elem_of_cons in Hx as [->|Hx]);
      [apply (bool_decide_unpack _); by vm_compute..|].
    by apply elem_of_nil in Hx.
Defined.

(** ** The identity permutation *)

Lemma sum_fmap_ge_length {A : Type} (f : A → Z) (l : list A) :
  (∀ x, x ∈ l → 1 ≤ f x) → Z.of_nat (length l) ≤ sum (f <$> l).
Proof.
  induction l as [|x l IH]; intros Hf; csimpl; [lia|].
  pose proof (Hf x ltac:(left)).
  pose proof (IH (λ y Hy, Hf y ltac:(by right))). lia.
Qed.

Lemma sum_fmap_nonneg {A : Type} (f : A → Z) (l : list A) :
  (∀ y, y ∈ l → 0 ≤ f y) → 0 ≤ sum (f <$> l).
Proof.
  induction l as [|y l IH]; intros Hf; csimpl; [lia|].
  pose proof (Hf y ltac:(left)).
  pose proof (IH (λ w Hw, Hf w ltac:(by right))). lia.
Qed.

Lemma sum_fmap_ge_term {A : Type} (f : A → Z) (l : list A) (x : A) :
  (∀ y, y ∈ l → 0 ≤ f y) → x ∈ l → f x ≤ sum (f <$> l).
Proof.
  induction l as [|y l IH]; intros Hf Hx; [by apply elem_of_nil in Hx|].
  csimpl. pose proof (Hf y ltac:(left)).
  pose proof (sum_fmap_nonneg f l (λ w Hw, Hf w ltac:(by right))).
  apply elem_of_cons in Hx as [->|Hx]; [lia|].
  pose proof (IH (λ w Hw, Hf w ltac:(by right)) Hx). lia.
Qed.

Lemma corners_nonempty (shape : list Z) :
  is_partition shape → shape ≠ [] → corners shape ≠ [].
Proof.
  intros Hshape Hne.
  assert (0 < length shape)%nat as Hlen by (destruct shape; [done|simpl; lia]).
  pose proof (proj2 (row_length_positive shape
    (Z.of_nat (length shape) - 1) (proj1 Hshape)) ltac:(lia)) as Hlast.
  assert ((Z.of_nat (length shape) - 1,
           row_length shape (Z.of_nat (length shape) - 1) - 1)
          ∈ corners shape) as Hcorner.
  { apply elem_of_corners.
    rewrite (row_length_outside shape (Z.of_nat (length shape) - 1 + 1))
      by lia. lia. }
  intros Hnil. rewrite Hnil in Hcorner. by apply elem_of_nil in Hcorner.
Qed.

Lemma rim_hooks_length_1 (shape : list Z) :
  is_partition shape →
  rim_hooks shape 1
  = Ok ((λ corner : cell,
           (positive_rows (remove_horizontal shape corner.1 1), 0))
          <$> corners shape).
Proof.
  intros Hshape. rewrite rim_hooks_partition by (done || lia). f_equal.
  assert (∀ l : list cell, (∀ x, x ∈ l → x ∈ corners shape) →
    l ≫= hooks_at shape 1
    = (λ corner : cell,
         (positive_rows (remove_horizontal shape corner.1 1), 0)) <$> l)
    as Hall.
  { induction l as [|[r0 c0] l IH]; intros Hl; [done|].
    rewrite bind_cons, IH by (intros y Hy; apply Hl; by right).
    csimpl. f_equal. unfold hooks_at.
    rewrite decide_False by (intros [? _]; lia).
    rewrite decide_True; [done|].
    apply wide_1. apply Hl. left. }
  by apply Hall.
Qed.

Lemma mn_identity_positive (n : nat) (shape : list Z) :
  is_partition shape →
  sum shape = Z.of_nat n →
  ∃ v, mn shape (replicate n 1) = Ok v ∧ 1 ≤ v.
Proof.
  revert shape. induction n as [|n IH]; intros shape Hshape Hsum.
  - exists 1. split; [done|lia].
  - assert (shape ≠ []) as Hne by (intros ->; simpl in Hsum; lia).
    change (replicate (S n) 1) with (1 :: replicate n 1).
    rewrite mn_cons.
    pose proof (rim_hooks_length_1 shape Hshape) as Hhooks.
    pose proof (rim_hooks_well_formed _ _ _ Hhooks) as Hwf.
    rewrite Hhooks. simpl.
    set (hooks := (λ corner : cell,
      (positive_rows (remove_horizontal shape corner.1 1), 0))
      <$> corners shape) in *.
    pose (g := λ h : hook,
      match mn h.1 (replicate n 1) with Ok v => v | Raise _ => 0 end).
    assert (∀ h, h ∈ hooks →
      ∃ v, mn h.1 (replicate n 1) = Ok v ∧ 1 ≤ v ∧ h.2 = 0) as Hh.
    { intros h Hin.
      destruct (proj1 (Forall_forall _ _) Hwf h Hin) as (Hpart & Hleft & _).
      destruct (IH h.1 Hpart ltac:(lia)) as (v & Hv & Hpos).
      exists v. split; [done|]. split; [done|].
      apply list_elem_of_fmap in Hin as (corner & -> & _). done. }
    rewrite (for_each_sum _ _ g).
    + eexists. split; [done|].
      assert (Z.of_nat (length hooks) ≤ sum (g <$> hooks)) as Hlower.
      { apply sum_fmap_ge_length. intros h Hin. unfold g.
        by destruct (Hh h Hin) as (v & -> & Hpos & _). }
      assert (hooks ≠ []) as Hsome.
      { unfold hooks. intros Hnil%fmap_nil_inv.
        by apply (corners_nonempty shape). }
      assert (1 ≤ Z.of_nat (length hooks)) as Hlength.
      { clear Hlower. clearbody hooks. destruct hooks; [done|simpl; lia]. }
      lia.
    + intros total h Hin. unfold g.
      destruct (Hh h Hin) as (v & -> & _ & ->). simpl. f_equal. lia.
Qed.

(** On the identity (all cycles of length 1) [character_S] is at least 1
    on every partition of [n]. *)
Theorem character_S_identity_positive (n : nat) (partition : list Z) :
  is_partition partition →
  sum partition = Z.of_nat n →
  ∃ v, character_S partition (replicate n 1) = Ok v ∧ 1 ≤ v.
Proof. apply mn_identity_positive. Qed.

Lemma character_S_identity_positive_witness :
  ∃ v, character_S [2; 1] (replicate 3 1) = Ok v ∧ 1 ≤ v.
Proof.
  apply character_S_identity_positive; [|done].
  split; repeat constructor; lia.
Defined.

Lemma sum_nonneg_rows (l : list Z) : Forall (λ x, 0 ≤ x) l → 0 ≤ sum l.
Proof. induction 1; simpl; lia. Qed.

Lemma all_zero_of_sum (l : list Z) :
  Forall (λ x, 0 ≤ x) l → sum l = 0 → Forall (λ r, r = 0) l.
Proof.
  induction 1 as [|x l Hx Hl IH]; intros Hsum; [done|].
  pose proof (sum_nonneg_rows l Hl). simpl in Hsum.
  constructor; [lia|]. apply IH. lia.
Qed.

Lemma positive_entry (l : list Z) :
  Forall (λ x, 0 ≤ x) l → 0 < sum l →
  ∃ (i : nat) (x : Z), l !! i = Some x ∧ 1 ≤ x.
Proof.
  induction 1 as [|x l Hx Hl IH]; intros Hsum; [simpl in Hsum; lia|].
  destruct (decide (1 ≤ x)) as [Hpos|Hzero].
  - by exists 0%nat, x.
  - destruct IH as (i & y & Hy & Hpos); [simpl in Hsum; lia|].
    by exists (S i), y.
Qed.

Lemma placements_identity_positive (n : nat) (remaining : list Z) :
  Forall (λ x, 0 ≤ x) remaining →
  sum remaining = Z.of_nat n →
  1 ≤ placements (length remaining) (replicate n 1) remaining.
Proof.
  revert remaining. induction n as [|n IH]; intros remaining Hpos Hsum.
  - simpl. rewrite bool_decide_eq_true_2; [lia|].
    by apply all_zero_of_sum.
  - destruct (positive_entry remaining Hpos ltac:(lia))
      as (i & ri & Hri & Hone).
    change (replicate (S n) 1) with (1 :: replicate n 1). simpl.
    match goal with
    | |- 1 ≤ sum (?f <$> _) =>
      pose proof (sum_fmap_ge_term f (seq 0 (length remaining)) i) as Hterm
    end.
    simpl in Hterm. rewrite Hri, bool_decide_eq_true_2 in Hterm by done.
    etrans; [|apply Hterm].
    + rewrite <-(length_insert remaining i (ri - 1)).
      apply IH; [by apply Forall_insert; [|lia]|].
      rewrite (sum_insert _ _ _ _ Hri). lia.
    + intros j _. destruct (remaining !! j) as [rj|]; [|done].
      case_bool_decide; [|done].
      apply (placements_bound (length remaining)).
    + apply elem_of_seq. apply lookup_lt_Some in Hri. lia.
Qed.

(** On the identity (all cycles of length 1) [character_M] is at least 1
    whenever the rows, none negative, add up to the number of cycles. *)
Theorem character_M_identity_positive (n : nat) (partition : list Z) :
  Forall (λ x, 0 ≤ x) partition →
  sum partition = Z.of_nat n →
  ∃ v, character_M partition (replicate n 1) = Ok v ∧ 1 ≤ v.
Proof.
  intros Hpos Hsum. eexists. split; [apply character_M_placements|].
  by apply placements_identity_positive.
Qed.

Lemma character_M_identity_positive_witness :
  ∃ v, character_M [2; 1] (replicate 3 1) = Ok v ∧ 1 ≤ v.
Proof.
  apply character_M_identity_positive; [repeat constructor; lia|done].
Defined.

(** ** The order of the hooks *)

(** The loop of [mn] over the hooks adds up the same total in whatever
    order the hooks are listed. *)
Theorem mn_loop_order_independent (rest : list Z) (hooks hooks' : list hook) :
  hooks ≡ₚ hooks' →
  for_each hooks (λ total h, v ← mn h.1 rest; Ok (total + (-1) ^ h.2 * v)) 0
  = for_each hooks' (λ total h, v ← mn h.1 rest; Ok (total + (-1) ^ h.2 * v))
      0.
Proof. apply mn_hooks_Permutation. Qed.

Lemma mn_loop_order_independent_witness :
  for_each [([1; 1], 0); ([2], 0)]
    (λ total h, v ← mn h.1 [2]; Ok (total + (-1) ^ h.2 * v)) 0
  = for_each [([2], 0); ([1; 1], 0)]
      (λ total h, v ← mn h.1 [2]; Ok (total + (-1) ^ h.2 * v)) 0.
Proof. apply mn_loop_order_independent, Permutation_swap. Defined.
